(** * sky/check.py: credential checks and the enabled-cloud bookkeeping

    A shallow embedding of [sky.check] (check_capabilities, check_capability,
    check, get_cached_enabled_clouds_or_refresh and the presentation helper
    _print_checked_cloud), followed by the properties of the verification and
    reconciliation engine.

    Conventions of the embedding.
    - A Python [str] is a [string]; its characters are read as code points
      below 256.
    - A Python [set] of names is a [gset string]; an insertion-ordered [dict]
      whose values are lists is an association list in insertion order; a
      [dict] that is only read with [.get] is a [gmap].
    - Effects (the enabled-cloud database, the probes that were run, the
      messages echoed) are threaded through a state-and-exception monad. *)

From Stdlib Require Import String Ascii.
From stdpp Require Import base option list strings functions gmap sets sorting.

#[local] Set Warnings "-clear-no-such-hyp".

Local Open Scope string_scope.
Local Open Scope list_scope.

(** ** Python string primitives used by check.py *)

Module PyStr.

(** [str.lower] on the code points below 256: the ASCII capitals and the
    Latin-1 capitals U+00C0..U+00DE, the multiplication sign U+00D7 apart. *)
Definition lower_char (a : ascii) : ascii :=
  let n := nat_of_ascii a in
  if ((65 <=? n)%nat && (n <=? 90)%nat)
     || ((192 <=? n)%nat && (n <=? 222)%nat && negb (n =? 215)%nat)
  then ascii_of_nat (n + 32) else a.

Fixpoint lower (s : string) : string :=
  match s with
  | EmptyString => EmptyString
  | String a s' => String (lower_char a) (lower s')
  end.

(** [s.startswith(p)]. *)
Definition startswith (s p : string) : bool := String.prefix p s.

(** The characters [str.strip()] removes, among the code points below 256:
    TAB..CR, FS..US, space, NEL and NBSP. *)
Definition isspace (a : ascii) : bool :=
  let n := nat_of_ascii a in
  ((9 <=? n)%nat && (n <=? 13)%nat)
  || ((28 <=? n)%nat && (n <=? 32)%nat)
  || (n =? 133)%nat || (n =? 160)%nat.

Fixpoint lstrip (s : string) : string :=
  match s with
  | EmptyString => EmptyString
  | String a s' => if isspace a then lstrip s' else s
  end.

Fixpoint rstrip (s : string) : string :=
  match s with
  | EmptyString => EmptyString
  | String a s' =>
      match rstrip s' with
      | EmptyString => if isspace a then EmptyString else String a EmptyString
      | r => String a r
      end
  end.

Definition strip (s : string) : string := rstrip (lstrip s).

(** Every character of [s] is whitespace. *)
Fixpoint all_space (s : string) : bool :=
  match s with
  | EmptyString => true
  | String a s' => isspace a && all_space s'
  end.

(** Truthiness of a [str]: [bool(s)]. *)
Definition truthy (s : string) : bool :=
  match s with EmptyString => false | _ => true end.

(** [sorted(l, key=key)]: a stable sort on the code-point order of the
    keys. *)
Fixpoint insert_by {A} (key : A → string) (x : A) (l : list A) : list A :=
  match l with
  | [] => [x]
  | y :: l' =>
      if String.leb (key x) (key y) then x :: y :: l'
      else y :: insert_by key x l'
  end.

Definition sorted {A} (key : A → string) (l : list A) : list A :=
  foldr (insert_by key) [] l.

(** The string does not start with whitespace. *)
Definition starts_clean (s : string) : bool :=
  match s with
  | EmptyString => true
  | String a _ => negb (isspace a)
  end.

(** The string does not end with whitespace. *)
Fixpoint ends_clean (s : string) : bool :=
  match s with
  | EmptyString => true
  | String a EmptyString => negb (isspace a)
  | String _ s' => ends_clean s'
  end.

End PyStr.

(** ** Data model *)

(** Modelled from the spec: the enumeration [sky_cloud.CloudCapability] and
    the list [sky_cloud.ALL_CAPABILITIES], both declared in sky/clouds/cloud.py
    (outside these sources). check.py names COMPUTE; the spec names COMPUTE
    and STORAGE. *)
Inductive CloudCapability := COMPUTE | STORAGE.

Definition ALL_CAPABILITIES : list CloudCapability := [COMPUTE; STORAGE].

#[global] Instance CloudCapability_eq_dec : EqDecision CloudCapability.
Proof. solve_decision. Defined.

(** The second component of a cloud tuple: the [cloudflare] adaptor module or
    a cloud object of the registry, identified by its [repr]. *)
Inductive CloudObj :=
| cloudflare
| cloud_object (cloud_repr : string).

#[global] Instance CloudObj_eq_dec : EqDecision CloudObj.
Proof. solve_decision. Defined.

Definition CloudTuple : Type := string * CloudObj.

(** The reason returned by [check_credentials]: a string or a mapping from
    context name to status text ([None] is [option]'s [None]). *)
Inductive Reason :=
| reason_str (s : string)
| reason_dict (ctx2text : list (string * string)).

(** What one call [cloud.check_credentials(capability)] does: it returns
    [(ok, reason)], raises [exceptions.NotSupportedError], or raises another
    exception that [except Exception] catches, with the frames and the
    exception line that the traceback shows. *)
Inductive Probe :=
| returns (ok : bool) (reason : option Reason)
| raises_NotSupportedError
| raises_Exception (stack : string).

(** [traceback.format_exc()] inside the handler: the header line of every
    Python traceback followed by the frames and the exception line. *)
Definition format_exc (stack : string) : string :=
  String.append "Traceback (most recent call last):" (String (ascii_of_nat 10) stack).

(** A check result: [(capability, ok, reason)]. *)
Definition CheckResult : Type := CloudCapability * bool * option Reason.

(** The collaborators of check.py that live outside it. *)
Record Env := {
  (** [repr(c) for c in registry.CLOUD_REGISTRY.values()] *)
  registry_values : list string;
  (** [registry.CLOUD_REGISTRY.from_str]: the [repr] of the cloud found;
      [None] when the lookup raises or returns [None]. *)
  registry_from_str : string → option string;
  (** [cloudflare.NAME] *)
  cloudflare_NAME : string;
  (** [cloud.check_credentials(capability)] *)
  check_credentials : CloudObj → CloudCapability → Probe;
  (** [skypilot_config.get_nested(('allowed_clouds',), default)]: [None] when
      the key is not set. *)
  config_allowed_clouds : option (list string);
  (** [cloud.get_active_user_identity_str()] *)
  get_active_user_identity_str : CloudObj → option string
}.

(** ** Effects: database, probes, messages, exceptions *)

(** One call of [echo], by kind; colours and wording are left out. *)
Inductive Echo :=
| echo_checking
| echo_cloud (cloud_repr : string) (enabled_capabilities : list CloudCapability)
| echo_activated_account (account : string)
| echo_hint (caps : list CloudCapability) (reason : string)
| echo_reason (caps : list CloudCapability) (reason : string)
| echo_no_cloud
| echo_disallowed_hint (disallowed_cloud_names : list string)
| echo_rerun (clouds_arg : string)
| echo_enabled_infra (enabled : list (string * list CloudCapability)).

Record State := {
  (** the enabled clouds stored per capability by [global_user_state] *)
  enabled_clouds_db : CloudCapability → gset string;
  (** the writes [set_enabled_clouds] received, oldest first *)
  db_writes : list (CloudCapability * gset string);
  (** the calls of [check_credentials] made, oldest first *)
  probed : list (CloudObj * CloudCapability);
  (** the messages echoed, oldest first *)
  echoed : list Echo
}.

Inductive Exn :=
| CloudNotFound (cloud_name : string)
| SystemExit
| NoCloudAccessError.

Inductive Result (A : Type) :=
| Return (a : A)
| Raise (e : Exn).
Arguments Return {A} a.
Arguments Raise {A} e.

#[global] Instance Result_ret : MRet Result := λ A a, Return a.
#[global] Instance Result_bind : MBind Result := λ A B f m,
  match m with
  | Return a => f a
  | Raise e => Raise e
  end.
#[global] Instance Result_fmap : FMap Result := λ A B f m,
  match m with
  | Return a => Return (f a)
  | Raise e => Raise e
  end.

(** A computation: it reads and updates the state and returns or raises; the
    effects made before an exception are kept. *)
Definition M (A : Type) : Type := State → Result A * State.

#[global] Instance M_ret : MRet M := λ A a st, (Return a, st).
#[global] Instance M_bind : MBind M := λ A B f m st,
  match m st with
  | (Return a, st') => f a st'
  | (Raise e, st') => (Raise e, st')
  end.

Definition raise {A} (e : Exn) : M A := λ st, (Raise e, st).

Definition lift {A} (r : Result A) : M A := λ st, (r, st).

(** [try: m  except SystemExit: pass] *)
Definition try_except_SystemExit (m : M unit) : M unit := λ st,
  match m st with
  | (Raise SystemExit, st') => (Return (), st')
  | r => r
  end.

Definition click_echo (msg : Echo) : M unit := λ st,
  (Return (),
   {| enabled_clouds_db := enabled_clouds_db st; db_writes := db_writes st;
      probed := probed st; echoed := echoed st ++ [msg] |}).

(** Modelled from the spec: [global_user_state.get_cached_enabled_clouds]
    and [global_user_state.set_enabled_clouds] (sky/global_user_state.py,
    outside these sources), the spec's cache store: a keyed get and a keyed
    set of provider names. The clouds read back are identified by their
    [repr]. *)
Definition get_cached_enabled_clouds (capability : CloudCapability)
  : M (gset string) := λ st, (Return (enabled_clouds_db st capability), st).

Definition set_enabled_clouds (enabled_clouds : gset string)
    (capability : CloudCapability) : M unit := λ st,
  (Return (),
   {| enabled_clouds_db := <[capability := enabled_clouds]> (enabled_clouds_db st);
      db_writes := db_writes st ++ [(capability, enabled_clouds)];
      probed := probed st; echoed := echoed st |}).

(** The call [cloud.check_credentials(capability)], recorded in [probed]. *)
Definition call_check_credentials (env : Env) (cloud : CloudObj)
    (capability : CloudCapability) : M Probe := λ st,
  (Return (check_credentials env cloud capability),
   {| enabled_clouds_db := enabled_clouds_db st; db_writes := db_writes st;
      probed := probed st ++ [(cloud, capability)]; echoed := echoed st |}).

(** Modelled from the spec: [subprocess_utils.run_in_parallel]
    (sky/utils/subprocess_utils.py, outside these sources), the spec's check
    dispatcher: it applies the function to every argument and returns the
    results in the order of the arguments. The probes share no state, so the
    interleaving only shows in the order of [probed], which is taken to be
    the order of the arguments. *)
Definition run_in_parallel {A B} (func : A → M B) (args : list A) : M (list B) :=
  mapM func args.

(** ** Dictionaries in insertion order *)

(** [d.setdefault(k, []).append(v)] (for a [defaultdict(list)]:
    [d[k].append(v)]). *)
Fixpoint setdefault_append {K V} `{EqDecision K}
    (d : list (K * list V)) (k : K) (v : V) : list (K * list V) :=
  match d with
  | [] => [(k, [v])]
  | (k', vs) :: d' =>
      if decide (k' = k) then (k', vs ++ [v]) :: d'
      else (k', vs) :: setdefault_append d' k v
  end.

(** [for x in l: body(x)] *)
Fixpoint for_each {A} (l : list A) (body : A → M unit) : M unit :=
  match l with
  | [] => mret ()
  | x :: l' => body x ;; for_each l' body
  end.

(** ** check_capabilities and its local functions *)

(** Lines 56-57: a reason that is not a dict is stripped when truthy and
    becomes [None] otherwise. *)
Definition normalize_reason (reason : option Reason) : option Reason :=
  match reason with
  | Some (reason_dict ctx2text) => Some (reason_dict ctx2text)
  | Some (reason_str s) =>
      if PyStr.truthy s then Some (reason_str (PyStr.strip s)) else None
  | None => None
  end.

(** The value [check_one_cloud_one_capability] returns for what the call of
    [check_credentials] did. *)
Definition check_result_of (capability : CloudCapability) (p : Probe)
  : option CheckResult :=
  match p with
  | raises_NotSupportedError => None
  | raises_Exception stack =>
      Some (capability, false,
            normalize_reason (Some (reason_str (format_exc stack))))
  | returns ok reason => Some (capability, ok, normalize_reason reason)
  end.

Definition check_one_cloud_one_capability (env : Env)
    (payload : CloudTuple * CloudCapability) : M (option CheckResult) :=
  let '(cloud_tuple, capability) := payload in
  let '(_, cloud) := cloud_tuple in
  p ← call_check_credentials env cloud capability;
  mret (check_result_of capability p).

Definition get_cloud_tuple (env : Env) (cloud_name : string)
  : Result CloudTuple :=
  if PyStr.startswith (PyStr.lower cloud_name) "cloudflare"
  then Return (cloudflare_NAME env, cloudflare)
  else match registry_from_str env cloud_name with
       | Some cloud_repr => Return (cloud_repr, cloud_object cloud_repr)
       | None => Raise (CloudNotFound cloud_name)
       end.

Definition get_all_clouds (env : Env) : list string :=
  registry_values env ++ [cloudflare_NAME env].

(** What the loop of lines 109-121 builds. *)
Record Aggregate := {
  enabled_clouds : list (string * list CloudCapability);
  disabled_clouds : list (string * list CloudCapability);
  check_results_dict : list (CloudTuple * list CheckResult);
  cloud2ctx2text : gmap string (list (string * string))
}.

Definition aggregate_init : Aggregate :=
  {| enabled_clouds := []; disabled_clouds := [];
     check_results_dict := []; cloud2ctx2text := ∅ |}.

(** One iteration of the loop of lines 109-121. *)
Definition aggregate_step (acc : Aggregate)
    (item : (CloudTuple * CloudCapability) * option CheckResult) : Aggregate :=
  let '(combination, check_result) := item in
  match check_result with
  | None => acc
  | Some (capability, ok, ctx2text) =>
      let '(cloud_tuple, _) := combination in
      let cloud_repr := cloud_tuple.1 in
      {| cloud2ctx2text :=
           match ctx2text with
           | Some (reason_dict d) => <[cloud_repr := d]> (cloud2ctx2text acc)
           | _ => cloud2ctx2text acc
           end;
         enabled_clouds :=
           if ok then setdefault_append (enabled_clouds acc) cloud_repr capability
           else enabled_clouds acc;
         disabled_clouds :=
           if ok then disabled_clouds acc
           else setdefault_append (disabled_clouds acc) cloud_repr capability;
         check_results_dict :=
           setdefault_append (check_results_dict acc) cloud_tuple
                             (capability, ok, ctx2text) |}
  end.

Definition aggregate (combinations : list (CloudTuple * CloudCapability))
    (check_results : list (option CheckResult)) : Aggregate :=
  fold_left aggregate_step (zip combinations check_results) aggregate_init.

(** One iteration of the loop of _print_checked_cloud (lines 327-338). *)
Definition print_step
    (acc : list CloudCapability * list (string * list CloudCapability)
           * list (string * list CloudCapability))
    (r : CheckResult) :=
  let '(enabled_capabilities, hints_to_capabilities, reasons_to_capabilities) := acc in
  let '(capability, ok, reason) := r in
  let enabled_capabilities :=
    if ok then enabled_capabilities ++ [capability] else enabled_capabilities in
  match reason with
  | Some (reason_str s) =>
      if ok
      then (enabled_capabilities,
            setdefault_append hints_to_capabilities s capability,
            reasons_to_capabilities)
      else (enabled_capabilities, hints_to_capabilities,
            setdefault_append reasons_to_capabilities s capability)
  | _ => (enabled_capabilities, hints_to_capabilities, reasons_to_capabilities)
  end.

(** The detail string of the Kubernetes and SSH contexts, the only use of
    [ctx2text], is text of the status line and is left out with it. *)
Definition _print_checked_cloud (env : Env) (echo : Echo → M unit)
    (verbose : bool) (cloud_tuple : CloudTuple)
    (cloud_capabilities : list CheckResult)
    (ctx2text : list (string * string)) : M unit :=
  let '(cloud_repr, cloud) := cloud_tuple in
  let '(enabled_capabilities, hints_to_capabilities, reasons_to_capabilities) :=
    fold_left print_step cloud_capabilities ([], [], []) in
  let activated_account :=
    match enabled_capabilities with
    | [] => None
    | _ => if verbose && bool_decide (cloud ≠ cloudflare)
           then get_active_user_identity_str env cloud else None
    end in
  echo (echo_cloud cloud_repr enabled_capabilities) ;;
  match activated_account with
  | Some account => echo (echo_activated_account account)
  | None => mret ()
  end ;;
  for_each hints_to_capabilities (λ '(reason, caps), echo (echo_hint caps reason)) ;;
  for_each reasons_to_capabilities (λ '(reason, caps), echo (echo_reason caps reason)).

(** Lines 138-141 and 142-145: the clouds of a dictionary that list the
    capability and are not Cloudflare. *)
Definition clouds_with (d : list (string * list CloudCapability))
    (capability : CloudCapability) : gset string :=
  list_to_set
    (fst <$> filter (λ item, capability ∈ item.2
                             ∧ ¬ PyStr.startswith item.1 "Cloudflare") d).

(** Lines 146-149. *)
Definition config_allowed_clouds_set (config_allowed_cloud_names : list string)
  : gset string :=
  list_to_set
    (filter (λ cloud, ¬ PyStr.startswith cloud "Cloudflare")
            config_allowed_cloud_names).

(** Lines 154-156. *)
Definition enabled_clouds_for_capability
    (config_allowed_clouds_set previously_enabled_clouds_set
     enabled_clouds_set disabled_clouds_set : gset string) : gset string :=
  config_allowed_clouds_set
  ∩ ((previously_enabled_clouds_set ∪ enabled_clouds_set) ∖ disabled_clouds_set).

(** The loop of lines 134-160; it returns [all_enabled_clouds]. *)
Fixpoint reconcile (agg : Aggregate) (config_allowed_cloud_names : list string)
    (capabilities : list CloudCapability) (all_enabled_clouds : gset string)
  : M (gset string) :=
  match capabilities with
  | [] => mret all_enabled_clouds
  | capability :: capabilities' =>
      let enabled_clouds_set := clouds_with (enabled_clouds agg) capability in
      let disabled_clouds_set := clouds_with (disabled_clouds agg) capability in
      let allowed := config_allowed_clouds_set config_allowed_cloud_names in
      previously_enabled_clouds_set ← get_cached_enabled_clouds capability;
      let new_enabled :=
        enabled_clouds_for_capability allowed previously_enabled_clouds_set
          enabled_clouds_set disabled_clouds_set in
      set_enabled_clouds new_enabled capability ;;
      reconcile agg config_allowed_cloud_names capabilities'
                (all_enabled_clouds ∪ new_enabled)
  end.

(** Lines 75-95: the clouds to check and the allowed names; both are resolved
    before anything else happens. *)
Definition resolve_clouds_to_check (env : Env) (clouds : option (list string))
  : Result (list CloudTuple) :=
  let cloud_list := default (get_all_clouds env) clouds in
  mapM (get_cloud_tuple env) cloud_list.

Definition resolve_config_allowed_cloud_names (env : Env) : Result (list string) :=
  PyStr.sorted id <$>
    mapM (λ c, fst <$> get_cloud_tuple env c)
         (default (get_all_clouds env) (config_allowed_clouds env)).

Definition check_capabilities (env : Env) (quiet verbose : bool)
    (clouds : option (list string))
    (capabilities : option (list CloudCapability))
  : M (list (string * list CloudCapability)) :=
  let echo : Echo → M unit := if quiet then (λ _, mret ()) else click_echo in
  echo echo_checking ;;
  let capabilities := default ALL_CAPABILITIES capabilities in
  clouds_to_check ← lift (resolve_clouds_to_check env clouds);
  config_allowed_cloud_names ← lift (resolve_config_allowed_cloud_names env);
  let disallowed_cloud_names :=
    filter (λ c, c ∉ config_allowed_cloud_names) (get_all_clouds env) in
  let clouds_to_check :=
    filter (λ c : CloudTuple, c.1 ∈ config_allowed_cloud_names) clouds_to_check in
  let combinations := list_prod clouds_to_check capabilities in
  check_results ← run_in_parallel (check_one_cloud_one_capability env) combinations;
  let agg := aggregate combinations check_results in
  for_each
    (PyStr.sorted (λ item : CloudTuple * list CheckResult, item.1.1)
                  (check_results_dict agg))
    (λ '(cloud_tuple, check_result_list),
       _print_checked_cloud env echo verbose cloud_tuple check_result_list
         (default [] (cloud2ctx2text agg !! cloud_tuple.1))) ;;
  all_enabled_clouds ← reconcile agg config_allowed_cloud_names capabilities ∅;
  let disallowed_clouds_hint :=
    match disallowed_cloud_names with
    | [] => None
    | _ => Some (echo_disallowed_hint disallowed_cloud_names)
    end in
  if decide (all_enabled_clouds = ∅) then
    echo echo_no_cloud ;;
    match disallowed_clouds_hint with
    | Some hint => echo hint
    | None => mret ()
    end ;;
    raise SystemExit
  else
    let clouds_arg :=
      match clouds with
      | Some _ =>
          String.append " "
            (PyStr.lower (String.concat " " (fst <$> disabled_clouds agg)))
      | None => ""
      end in
    echo (echo_rerun clouds_arg) ;;
    match disallowed_clouds_hint with
    | Some hint => echo hint
    | None => mret ()
    end ;;
    (if quiet then mret ()
     else echo (echo_enabled_infra
                  (PyStr.sorted (λ item : string * list CloudCapability, item.1)
                                (enabled_clouds agg)))) ;;
    mret (enabled_clouds agg).

Definition check_capability (env : Env) (capability : CloudCapability)
    (quiet verbose : bool) (clouds : option (list string)) : M (list string) :=
  enabled_clouds ← check_capabilities env quiet verbose clouds (Some [capability]);
  mret (fst <$> filter (λ item : string * list CloudCapability,
                          capability ∈ item.2) enabled_clouds).

Definition check (env : Env) (quiet verbose : bool)
    (clouds : option (list string)) : M (list string) :=
  enabled_clouds ← check_capabilities env quiet verbose clouds (Some ALL_CAPABILITIES);
  mret (fst <$> enabled_clouds).

Definition get_cached_enabled_clouds_or_refresh (env : Env)
    (capability : CloudCapability) (raise_if_no_cloud_access : bool)
  : M (gset string) :=
  cached_enabled_clouds ← get_cached_enabled_clouds capability;
  cached_enabled_clouds ←
    (if decide (cached_enabled_clouds = ∅) then
       try_except_SystemExit
         (check_capability env COMPUTE true false None ;; mret ()) ;;
       get_cached_enabled_clouds capability
     else mret cached_enabled_clouds);
  if raise_if_no_cloud_access && bool_decide (cached_enabled_clouds = ∅)
  then raise NoCloudAccessError
  else mret cached_enabled_clouds.

(** * Vocabulary of the properties *)

(** ** Effects in closed form *)

(** The database after the writes [ws], oldest first. *)
Definition apply_writes (ws : list (CloudCapability * gset string))
    (db : CloudCapability → gset string) : CloudCapability → gset string :=
  fold_left (λ db w, <[w.1 := w.2]> db) ws db.

(** The state after the writes [ws], the probes [ps] and the messages [es]. *)
Definition effects (st : State) (ws : list (CloudCapability * gset string))
    (ps : list (CloudObj * CloudCapability)) (es : list Echo) : State :=
  {| enabled_clouds_db := apply_writes ws (enabled_clouds_db st);
     db_writes := db_writes st ++ ws;
     probed := probed st ++ ps;
     echoed := echoed st ++ es |}.

(** [m] returns and only echoes [out]. *)
Definition emits (m : M unit) (out : list Echo) : Prop :=
  ∀ st, m st = (Return (), effects st [] [] out).

(** What reaches the terminal of [out] when [echo] is muted by [quiet]. *)
Definition quiet_out (quiet : bool) (out : list Echo) : list Echo :=
  if quiet then [] else out.

(** ** One run in closed form *)

(** The result [check_one_cloud_one_capability] gives for a pair. *)
Definition probe_result (env : Env) (payload : CloudTuple * CloudCapability)
  : option CheckResult :=
  check_result_of payload.2 (check_credentials env payload.1.2 payload.2).

(** The call of [check_credentials] made for a pair. *)
Definition probe_of (payload : CloudTuple * CloudCapability)
  : CloudObj * CloudCapability := (payload.1.2, payload.2).

(** What _print_checked_cloud echoes when [echo] is not muted. *)
Definition print_checked_cloud_lines (env : Env) (verbose : bool)
    (cloud_tuple : CloudTuple) (cloud_capabilities : list CheckResult)
  : list Echo :=
  let '(cloud_repr, cloud) := cloud_tuple in
  let '(enabled_capabilities, hints_to_capabilities, reasons_to_capabilities) :=
    fold_left print_step cloud_capabilities ([], [], []) in
  [echo_cloud cloud_repr enabled_capabilities]
  ++ match match enabled_capabilities with
           | [] => None
           | _ => if verbose && bool_decide (cloud ≠ cloudflare)
                  then get_active_user_identity_str env cloud else None
           end with
     | Some account => [echo_activated_account account]
     | None => []
     end
  ++ ((λ '(reason, caps), echo_hint caps reason) <$> hints_to_capabilities)
  ++ ((λ '(reason, caps), echo_reason caps reason) <$> reasons_to_capabilities).

(** The set written for a capability when the database holds [db]. *)
Definition new_enabled (agg : Aggregate) (config_allowed_cloud_names : list string)
    (db : CloudCapability → gset string) (capability : CloudCapability)
  : gset string :=
  enabled_clouds_for_capability
    (config_allowed_clouds_set config_allowed_cloud_names)
    (db capability)
    (clouds_with (enabled_clouds agg) capability)
    (clouds_with (disabled_clouds agg) capability).

(** The eligible pairs: [combinations] of line 97. *)
Definition matrix (clouds_to_check : list CloudTuple)
    (config_allowed_cloud_names : list string)
    (capabilities : list CloudCapability) : list (CloudTuple * CloudCapability) :=
  list_prod
    (filter (λ c : CloudTuple, c.1 ∈ config_allowed_cloud_names) clouds_to_check)
    capabilities.

(** The dictionaries built from the results of the eligible pairs. *)
Definition run_aggregate (env : Env) (clouds_to_check : list CloudTuple)
    (config_allowed_cloud_names : list string)
    (capabilities : list CloudCapability) : Aggregate :=
  let combinations := matrix clouds_to_check config_allowed_cloud_names capabilities in
  aggregate combinations (probe_result env <$> combinations).

(** The lines echoed by the loop of lines 123-126. *)
Definition cloud_lines (env : Env) (verbose : bool) (agg : Aggregate) : list Echo :=
  concat ((λ item : CloudTuple * list CheckResult,
             print_checked_cloud_lines env verbose item.1 item.2)
            <$> PyStr.sorted (λ item : CloudTuple * list CheckResult, item.1.1)
                  (check_results_dict agg)).

(** The dictionary lists [v] under the key [k]. *)
Definition listed {K V} (d : list (K * list V)) (k : K) (v : V) : Prop :=
  ∃ vs, (k, vs) ∈ d ∧ v ∈ vs.

(** ** The sets of the reconciliation, as the specification names them *)

(** Whether the probe counts as passed or failed; [None] when the provider
    does not support the capability. *)
Definition outcome_ok (p : Probe) : option bool :=
  match p with
  | returns ok _ => Some ok
  | raises_NotSupportedError => None
  | raises_Exception _ => Some false
  end.

(** The providers whose probe for the capability passed ([ok = true]) or
    failed ([ok = false]) among the eligible pairs. *)
Definition providers_with (ok : bool) (env : Env)
    (combinations : list (CloudTuple * CloudCapability))
    (capability : CloudCapability) : gset string :=
  list_to_set
    ((λ p : CloudTuple * CloudCapability, p.1.1)
       <$> filter (λ p : CloudTuple * CloudCapability,
                     p.2 = capability
                     ∧ outcome_ok (check_credentials env p.1.2 p.2) = Some ok)
                  combinations).

(** A set of names without the pseudo-providers. *)
Definition real_clouds (X : gset string) : gset string :=
  filter (λ x, ¬ PyStr.startswith x "Cloudflare") X.

(** No probe of an eligible pair passes. *)
Definition zero_providers_pass (env : Env)
    (combinations : list (CloudTuple * CloudCapability)) : Prop :=
  ∀ p, p ∈ combinations → outcome_ok (check_credentials env p.1.2 p.2) ≠ Some true.

(** The name is not a Cloudflare name and the registry does not know it. *)
Definition unresolvable (env : Env) (cloud_name : string) : Prop :=
  PyStr.startswith (PyStr.lower cloud_name) "cloudflare" = false
  ∧ registry_from_str env cloud_name = None.

(** ** A sample world, used to instantiate the theorems *)

(** Two registered clouds and Cloudflare, no allow-list in the configuration.
    AWS fails COMPUTE with a padded reason and raises on STORAGE; GCP passes
    both; Cloudflare does not support COMPUTE and passes STORAGE. *)
Definition demo_env : Env :=
  {| registry_values := ["AWS"; "GCP"];
     registry_from_str := λ s,
       if String.eqb (PyStr.lower s) "aws" then Some "AWS"
       else if String.eqb (PyStr.lower s) "gcp" then Some "GCP" else None;
     cloudflare_NAME := "Cloudflare";
     check_credentials := λ cloud capability,
       match cloud, capability with
       | cloud_object "AWS", COMPUTE => returns false (Some (reason_str "  no credentials  "))
       | cloud_object "AWS", STORAGE => raises_Exception "RuntimeError: boom"
       | cloud_object "GCP", _ => returns true None
       | cloudflare, COMPUTE => raises_NotSupportedError
       | cloudflare, STORAGE => returns true (Some (reason_str ""))
       | _, _ => returns false None
       end;
     config_allowed_clouds := None;
     get_active_user_identity_str := λ _, None |}.

(** What the names of the sample world resolve to. *)
Definition demo_clouds_to_check : list CloudTuple :=
  [("AWS", cloud_object "AWS"); ("GCP", cloud_object "GCP"); ("Cloudflare", cloudflare)].

Definition demo_names : list string := ["AWS"; "Cloudflare"; "GCP"].

(** An empty database. *)
Definition fresh_state : State :=
  {| enabled_clouds_db := λ _, ∅; db_writes := []; probed := []; echoed := [] |}.

(** A database in which GCP is enabled for COMPUTE. *)
Definition gcp_state : State :=
  {| enabled_clouds_db := λ c, if decide (c = COMPUTE) then {["GCP"]} else ∅;
     db_writes := []; probed := []; echoed := [] |}.

(** * The credential file mounts *)

(** The collaborators of get_cloud_credential_file_mounts that live outside
    check.py. A registry cloud is identified by its [repr], as in [Env]; the
    dictionaries the clouds return are given by their items. *)
Record MountsEnv := {
  (** [sky_clouds.cloud_in_iterable(cloud, excluded_clouds)] *)
  cloud_in_iterable : string → list string → bool;
  (** [cloud.get_credential_file_mounts().items()] *)
  get_credential_file_mounts : string → list (string * string);
  (** [os.path.exists(os.path.expanduser(local_path))] *)
  local_path_exists : string → bool;
  (** the first component of [cloudflare.check_storage_credentials()] *)
  r2_is_enabled : bool;
  (** [cloudflare.get_credential_file_mounts().items()] *)
  r2_credential_mounts : list (string * string)
}.

(** Lines 284-286: the mounts of one cloud whose local path exists are
    stored under their remote path. *)
Definition add_existing_mounts (menv : MountsEnv)
    (file_mounts : gmap string string)
    (cloud_file_mounts : list (string * string)) : gmap string string :=
  foldl (λ file_mounts '(remote_path, local_path),
           if local_path_exists menv local_path
           then <[remote_path := local_path]> file_mounts
           else file_mounts)
        file_mounts cloud_file_mounts.

(** [d.update(items)] *)
Definition dict_update (d : gmap string string)
    (items : list (string * string)) : gmap string string :=
  foldl (λ d '(k, v), <[k := v]> d) d items.

(** The returned dictionary is a [gmap]: the order of its keys is left out. *)
Definition get_cloud_credential_file_mounts (env : Env) (menv : MountsEnv)
    (excluded_clouds : option (list string)) : gmap string string :=
  let file_mounts :=
    foldl (λ file_mounts cloud,
             if match excluded_clouds with
                | Some excluded => cloud_in_iterable menv cloud excluded
                | None => false
                end
             then file_mounts
             else add_existing_mounts menv file_mounts
                    (get_credential_file_mounts menv cloud))
          ∅ (registry_values env) in
  if r2_is_enabled menv
  then dict_update file_mounts (r2_credential_mounts menv)
  else file_mounts.

(** * Further vocabulary *)

(** [disallowed_cloud_names] of lines 89-91. *)
Definition disallowed_names (env : Env) (config_allowed_cloud_names : list string)
  : list string :=
  filter (λ c, c ∉ config_allowed_cloud_names) (get_all_clouds env).

(** The messages of lines 161-202 when [echo] is not muted: the branch taken
    when no cloud is enabled, or the other one. *)
Definition closing_lines (env : Env) (clouds : option (list string))
    (config_allowed_cloud_names : list string) (agg : Aggregate)
    (no_cloud : bool) : list Echo :=
  let hint :=
    match disallowed_names env config_allowed_cloud_names with
    | [] => []
    | names => [echo_disallowed_hint names]
    end in
  if no_cloud then echo_no_cloud :: hint
  else
    echo_rerun
      match clouds with
      | Some _ =>
          String.append " "
            (PyStr.lower (String.concat " " (fst <$> disabled_clouds agg)))
      | None => ""
      end
    :: hint
    ++ [echo_enabled_infra
          (PyStr.sorted (λ item : string * list CloudCapability, item.1)
                        (enabled_clouds agg))].

(** The keys are distinct and no key has an empty list. *)
Definition dict_wf {K V} (d : list (K * list V)) : Prop :=
  NoDup d.*1 ∧ Forall (λ item, item.2 ≠ []) d.

(** The capabilities of the check results that are ok, in order. *)
Definition enabled_capabilities_of (results : list CheckResult)
  : list CloudCapability :=
  (λ r : CheckResult, r.1.1) <$> filter (λ r : CheckResult, r.1.2 = true) results.

(** The order [sorted] puts strings in: the code-point order. *)
Definition str_le (a b : string) : Prop := String.leb a b = true.

(** The kinds of message _print_checked_cloud echoes. *)
Definition cloud_line (e : Echo) : bool :=
  match e with
  | echo_cloud _ _ | echo_activated_account _ | echo_hint _ _ | echo_reason _ _ => true
  | _ => false
  end.

(** The cloud a status line is about. *)
Definition echo_cloud_name (e : Echo) : option string :=
  match e with
  | echo_cloud cloud_repr _ => Some cloud_repr
  | _ => None
  end.

(** The sample world with an allow-list that names an unknown cloud. *)
Definition typo_env : Env :=
  {| registry_values := registry_values demo_env;
     registry_from_str := registry_from_str demo_env;
     cloudflare_NAME := cloudflare_NAME demo_env;
     check_credentials := check_credentials demo_env;
     config_allowed_clouds := Some ["aws"; "azure"];
     get_active_user_identity_str := get_active_user_identity_str demo_env |}.

(** The sample world with an allow-list that names AWS only. *)
Definition aws_only_env : Env :=
  {| registry_values := registry_values demo_env;
     registry_from_str := registry_from_str demo_env;
     cloudflare_NAME := cloudflare_NAME demo_env;
     check_credentials := check_credentials demo_env;
     config_allowed_clouds := Some ["aws"];
     get_active_user_identity_str := get_active_user_identity_str demo_env |}.

(** A sample of credential files: AWS has two, one of them missing on disk;
    GCP has one; R2 is enabled and claims the remote path of GCP. *)
Definition demo_mounts_env : MountsEnv :=
  {| cloud_in_iterable := λ cloud excluded, bool_decide (cloud ∈ excluded);
     get_credential_file_mounts := λ cloud,
       if String.eqb cloud "AWS"
       then [("~/.aws/credentials", "~/.aws/credentials"); ("~/.aws/config", "~/.aws/config")]
       else if String.eqb cloud "GCP"
       then [("~/.config/gcloud", "~/.config/gcloud")]
       else [];
     local_path_exists := λ local_path, negb (String.eqb local_path "~/.aws/config");
     r2_is_enabled := true;
     r2_credential_mounts :=
       [("~/.cloudflare/r2.credentials", "~/.cloudflare/r2.credentials");
        ("~/.config/gcloud", "~/.cloudflare/gcloud")] |}.

(** * Properties *)

(** ** Strings: what [strip] returns *)

Module PyStrFacts.
Import PyStr.

Lemma lstrip_split s :
  ∃ pre, s = String.append pre (lstrip s) ∧ all_space pre = true.
Proof.
  induction s as [|a s [pre [E Hpre]]]; simpl.
  - by exists EmptyString.
  - destruct (isspace a) eqn:Ha.
    + exists (String a pre). split.
      * change (String a s = String a (String.append pre (lstrip s))).
        by rewrite <- E.
      * simpl. by rewrite Ha, Hpre.
    + by exists EmptyString.
Qed.

Lemma lstrip_starts_clean s : starts_clean (lstrip s) = true.
Proof.
  induction s as [|a s IH]; simpl; [done|].
  destruct (isspace a) eqn:Ha; [done|]. simpl. by rewrite Ha.
Qed.

Lemma rstrip_split s :
  ∃ post, s = String.append (rstrip s) post ∧ all_space post = true.
Proof.
  induction s as [|a s [post [E Hpost]]]; simpl.
  - by exists EmptyString.
  - destruct (rstrip s) as [|b r] eqn:Hr.
    + change (s = post) in E. subst post. destruct (isspace a) eqn:Ha.
      * exists (String a s). split; [reflexivity|]. simpl. by rewrite Ha, Hpost.
      * by exists s.
    + exists post. split; [|done].
      change (String a s = String a (String.append (String b r) post)).
      by f_equal.
Qed.

Lemma rstrip_ends_clean s : ends_clean (rstrip s) = true.
Proof.
  induction s as [|a s IH]; simpl; [done|].
  destruct (rstrip s) as [|b r] eqn:Hr.
  - destruct (isspace a) eqn:Ha; simpl; [done|]. by rewrite Ha.
  - exact IH.
Qed.

Lemma rstrip_starts_clean s :
  starts_clean s = true → starts_clean (rstrip s) = true.
Proof.
  destruct s as [|a s]; simpl; [done|]. intros Ha.
  destruct (rstrip s); [|done].
  destruct (isspace a) eqn:E; [done|]. simpl. by rewrite E.
Qed.

Lemma rstrip_nonempty a s : isspace a = false → rstrip (String a s) ≠ EmptyString.
Proof. intros Ha. simpl. destruct (rstrip s); [by rewrite Ha|done]. Qed.

(** [strip s] is [s] without its leading and trailing whitespace. *)
Lemma strip_spec s :
  (∃ pre post,
     s = String.append pre (String.append (strip s) post)
     ∧ all_space pre = true ∧ all_space post = true)
  ∧ starts_clean (strip s) = true ∧ ends_clean (strip s) = true.
Proof.
  unfold strip. split; [|split].
  - destruct (lstrip_split s) as [pre [E1 H1]].
    destruct (rstrip_split (lstrip s)) as [post [E2 H2]].
    exists pre, post. by rewrite <- E2.
  - apply rstrip_starts_clean, lstrip_starts_clean.
  - apply rstrip_ends_clean.
Qed.

Lemma strip_nonempty a s : isspace a = false → strip (String a s) ≠ EmptyString.
Proof.
  intros Ha. unfold strip. simpl. rewrite Ha. by apply rstrip_nonempty.
Qed.

Lemma elem_of_insert_by {A} (key : A → string) x y l :
  y ∈ insert_by key x l ↔ y = x ∨ y ∈ l.
Proof.
  induction l as [|z l IH]; simpl.
  - rewrite list_elem_of_singleton, elem_of_nil. tauto.
  - destruct (String.leb (key x) (key z)).
    + by rewrite elem_of_cons.
    + rewrite !elem_of_cons, IH. tauto.
Qed.

Lemma elem_of_sorted {A} (key : A → string) y l : y ∈ sorted key l ↔ y ∈ l.
Proof.
  induction l as [|x l IH]; simpl; [done|].
  by rewrite elem_of_insert_by, elem_of_cons, IH.
Qed.

End PyStrFacts.

(** ** The effects of a computation on the state *)

Lemma effects_nil st : effects st [] [] [] = st.
Proof. destruct st. unfold effects. simpl. by rewrite !app_nil_r. Qed.

Lemma effects_effects st ws1 ps1 es1 ws2 ps2 es2 :
  effects (effects st ws1 ps1 es1) ws2 ps2 es2
  = effects st (ws1 ++ ws2) (ps1 ++ ps2) (es1 ++ es2).
Proof.
  unfold effects, apply_writes. simpl.
  by rewrite fold_left_app, <- !app_assoc.
Qed.

Lemma bind_return {A B} (m : M A) (f : A → M B) st a st1 :
  m st = (Return a, st1) → (m ≫= f) st = f a st1.
Proof. intros E. unfold mbind, M_bind. by rewrite E. Qed.

Lemma bind_raise {A B} (m : M A) (f : A → M B) st e st1 :
  m st = (Raise e, st1) → (m ≫= f) st = (Raise e, st1).
Proof. intros E. unfold mbind, M_bind. by rewrite E. Qed.

Lemma emits_ret : emits (mret ()) [].
Proof. intros st. by rewrite effects_nil. Qed.

Lemma emits_click_echo msg : emits (click_echo msg) [msg].
Proof. intros [db ws ps es]. unfold click_echo, effects. simpl. by rewrite !app_nil_r. Qed.

Lemma emits_echo (quiet : bool) msg :
  emits ((if quiet then (λ _, mret ()) else click_echo) msg) (quiet_out quiet [msg]).
Proof. destruct quiet; [apply emits_ret | apply emits_click_echo]. Qed.

Lemma emits_seq m1 m2 o1 o2 :
  emits m1 o1 → emits m2 o2 → emits (m1 ;; m2) (o1 ++ o2).
Proof.
  intros H1 H2 st. rewrite (bind_return _ _ _ _ _ (H1 st)), H2.
  by rewrite effects_effects.
Qed.

Lemma emits_for_each {A} (l : list A) body (out : A → list Echo) :
  (∀ x, emits (body x) (out x)) → emits (for_each l body) (concat (out <$> l)).
Proof.
  intros Hb. induction l as [|x l IH]; simpl.
  - apply emits_ret.
  - by apply emits_seq.
Qed.

(** ** The probe adapter and the dispatcher *)

Lemma check_one_cloud_one_capability_run env payload st :
  check_one_cloud_one_capability env payload st
  = (Return (probe_result env payload), effects st [] [probe_of payload] []).
Proof.
  destruct payload as [[name cloud] capability], st as [db ws ps es].
  unfold check_one_cloud_one_capability, probe_result, probe_of, effects.
  unfold mbind, M_bind, call_check_credentials. simpl. by rewrite !app_nil_r.
Qed.

Lemma run_in_parallel_run env combinations st :
  run_in_parallel (check_one_cloud_one_capability env) combinations st
  = (Return (probe_result env <$> combinations),
     effects st [] (probe_of <$> combinations) []).
Proof.
  unfold run_in_parallel. revert st.
  induction combinations as [|p l IH]; intros st; simpl.
  - by rewrite effects_nil.
  - rewrite (bind_return _ _ _ _ _ (check_one_cloud_one_capability_run env p st)).
    rewrite (bind_return _ _ _ _ _ (IH _)).
    unfold mret, M_ret. by rewrite effects_effects.
Qed.

(** ** Presentation *)

Lemma emits_for_each_echo {A} (quiet : bool) (l : list A) body (msg : A → Echo) :
  (∀ x, emits (body x) (quiet_out quiet [msg x])) →
  emits (for_each l body) (quiet_out quiet (msg <$> l)).
Proof.
  intros Hb. induction l as [|x l IH]; [destruct quiet; apply emits_ret|].
  rewrite fmap_cons. cbn [for_each].
  replace (quiet_out quiet (msg x :: (msg <$> l)))
    with (quiet_out quiet [msg x] ++ quiet_out quiet (msg <$> l))
    by (by destruct quiet).
  apply emits_seq; [apply Hb | exact IH].
Qed.

Lemma _print_checked_cloud_emits env (quiet verbose : bool) cloud_tuple results ctx2text :
  emits (_print_checked_cloud env (if quiet then (λ _, mret ()) else click_echo)
           verbose cloud_tuple results ctx2text)
        (quiet_out quiet (print_checked_cloud_lines env verbose cloud_tuple results)).
Proof.
  unfold _print_checked_cloud, print_checked_cloud_lines.
  destruct cloud_tuple as [cloud_repr cloud].
  destruct (fold_left print_step results ([], [], [])) as [[en hints] reasons].
  set (account := match en with [] => None | _ => _ end).
  match goal with
  | |- emits _ (quiet_out _ (?a ++ ?b ++ ?c ++ ?d)) =>
      replace (quiet_out quiet (a ++ b ++ c ++ d))
        with (quiet_out quiet a ++ quiet_out quiet b
              ++ quiet_out quiet c ++ quiet_out quiet d)
        by (by destruct quiet)
  end.
  apply emits_seq; [apply emits_echo|].
  apply emits_seq.
  { destruct account; [apply emits_echo | destruct quiet; apply emits_ret]. }
  apply emits_seq.
  - apply emits_for_each_echo. intros [reason caps]. apply emits_echo.
  - apply emits_for_each_echo. intros [reason caps]. apply emits_echo.
Qed.

(** ** Reconciliation *)

Lemma enabled_clouds_for_capability_idem (allowed previously passed failed : gset string) :
  enabled_clouds_for_capability allowed
    (enabled_clouds_for_capability allowed previously passed failed) passed failed
  = enabled_clouds_for_capability allowed previously passed failed.
Proof. unfold enabled_clouds_for_capability. set_solver. Qed.

Lemma new_enabled_insert agg names db c c' :
  new_enabled agg names (<[c := new_enabled agg names db c]> db) c'
  = new_enabled agg names db c'.
Proof.
  unfold new_enabled. destruct (decide (c = c')) as [->|Hne].
  - rewrite fn_lookup_insert. apply enabled_clouds_for_capability_idem.
  - by rewrite fn_lookup_insert_ne.
Qed.

Lemma set_enabled_clouds_run enabled capability st :
  set_enabled_clouds enabled capability st
  = (Return (), effects st [(capability, enabled)] [] []).
Proof. destruct st. unfold set_enabled_clouds, effects. simpl. by rewrite !app_nil_r. Qed.

Lemma reconcile_run agg names capabilities acc st :
  reconcile agg names capabilities acc st
  = (Return (acc ∪ ⋃ (new_enabled agg names (enabled_clouds_db st) <$> capabilities)),
     effects st ((λ c, (c, new_enabled agg names (enabled_clouds_db st) c))
                   <$> capabilities) [] []).
Proof.
  revert acc st. induction capabilities as [|c caps IH]; intros acc st.
  - simpl. rewrite effects_nil. unfold mret, M_ret. f_equal. f_equal. set_solver.
  - cbn [reconcile].
    unfold mbind at 1, M_bind at 1. unfold get_cached_enabled_clouds at 1.
    fold (new_enabled agg names (enabled_clouds_db st) c).
    rewrite (bind_return _ _ _ _ _ (set_enabled_clouds_run _ _ _)).
    rewrite IH, effects_effects. simpl.
    change (apply_writes _ (enabled_clouds_db st))
      with (<[c := new_enabled agg names (enabled_clouds_db st) c]> (enabled_clouds_db st)).
    f_equal.
    + f_equal.
      rewrite (list_fmap_ext _ (new_enabled agg names (enabled_clouds_db st)) caps)
        by (intros; apply new_enabled_insert).
      symmetry. apply (assoc_L (∪)).
    + f_equal. f_equal.
      apply list_fmap_ext. intros ? c' _. f_equal. apply new_enabled_insert.
Qed.

Lemma apply_writes_lookup (g : CloudCapability → gset string) capabilities db c :
  apply_writes ((λ c, (c, g c)) <$> capabilities) db c
  = if decide (c ∈ capabilities) then g c else db c.
Proof.
  revert db. induction capabilities as [|c0 caps IH]; intros db.
  - destruct (decide (c ∈ [])) as [H|_]; [by apply elem_of_nil in H|done].
  - change (apply_writes ((λ c, (c, g c)) <$> c0 :: caps) db)
      with (apply_writes ((λ c, (c, g c)) <$> caps) (<[c0 := g c0]> db)).
    rewrite IH.
    destruct (decide (c ∈ caps)) as [Hin|Hnin], (decide (c ∈ c0 :: caps)) as [Hin'|Hnin'];
      try done.
    + exfalso. apply Hnin'. by apply elem_of_cons; right.
    + apply elem_of_cons in Hin' as [->|?]; [|done]. by rewrite fn_lookup_insert.
    + rewrite fn_lookup_insert_ne; [done|]. intros ->. apply Hnin'. by apply elem_of_cons; left.
Qed.

(** ** One run of check_capabilities *)

Lemma lift_run {A} (r : Result A) st : lift r st = (r, st).
Proof. done. Qed.

Lemma emits_hint (quiet : bool) (hint : option Echo) :
  emits match hint with
        | Some h => (if quiet then (λ _, mret ()) else click_echo) h
        | None => mret ()
        end
        (quiet_out quiet (option_list hint)).
Proof.
  destruct hint; simpl; [apply emits_echo|]. destruct quiet; apply emits_ret.
Qed.

Lemma quiet_out_app quiet o1 o2 :
  quiet_out quiet o1 ++ quiet_out quiet o2 = quiet_out quiet (o1 ++ o2).
Proof. by destruct quiet. Qed.

Lemma quiet_out_concat {A} quiet (f : A → list Echo) l :
  concat ((λ x, quiet_out quiet (f x)) <$> l) = quiet_out quiet (concat (f <$> l)).
Proof.
  induction l as [|x l IH]; [by destruct quiet|].
  rewrite !fmap_cons. simpl. by rewrite IH, quiet_out_app.
Qed.

Lemma check_capabilities_run env quiet verbose clouds capabilities st
    clouds_to_check names :
  resolve_clouds_to_check env clouds = Return clouds_to_check →
  resolve_config_allowed_cloud_names env = Return names →
  let caps := default ALL_CAPABILITIES capabilities in
  let agg := run_aggregate env clouds_to_check names caps in
  ∃ tail,
    check_capabilities env quiet verbose clouds capabilities st
    = (if decide (⋃ (new_enabled agg names (enabled_clouds_db st) <$> caps) = ∅)
       then Raise SystemExit else Return (enabled_clouds agg),
       effects st
         ((λ c, (c, new_enabled agg names (enabled_clouds_db st) c)) <$> caps)
         (probe_of <$> matrix clouds_to_check names caps)
         (quiet_out quiet ([echo_checking] ++ cloud_lines env verbose agg ++ tail))).
Proof.
  intros Hclouds Hnames caps agg.
  unfold check_capabilities.
  rewrite (bind_return _ _ _ _ _ (emits_echo quiet echo_checking st)).
  rewrite Hclouds, (bind_return _ _ _ _ _ (lift_run _ _)).
  rewrite Hnames, (bind_return _ _ _ _ _ (lift_run _ _)).
  fold caps. fold (matrix clouds_to_check names caps).
  rewrite (bind_return _ _ _ _ _ (run_in_parallel_run _ _ _)).
  fold (run_aggregate env clouds_to_check names caps). fold agg.
  rewrite effects_effects.
  set (items := PyStr.sorted _ (check_results_dict agg)).
  assert (emits
    (for_each items
       (λ '(cloud_tuple, check_result_list),
          _print_checked_cloud env (if quiet then (λ _, mret ()) else click_echo)
            verbose cloud_tuple check_result_list
            (default [] (cloud2ctx2text agg !! cloud_tuple.1))))
    (concat ((λ item, quiet_out quiet
                (print_checked_cloud_lines env verbose item.1 item.2)) <$> items)))
    as Hprint.
  { apply emits_for_each. intros [cloud_tuple check_result_list].
    apply _print_checked_cloud_emits. }
  rewrite (bind_return _ _ _ _ _ (Hprint _)); clear Hprint.
  rewrite effects_effects, quiet_out_concat. fold (cloud_lines env verbose agg).
  rewrite (bind_return _ _ _ _ _ (reconcile_run _ _ _ _ _)).
  rewrite effects_effects. simpl.
  rewrite (left_id_L ∅ (∪)).
  set (all_enabled := ⋃ _).
  destruct (decide (all_enabled = ∅)) as [Hempty|Hsome].
  - rewrite (bind_return _ _ _ _ _ (emits_echo quiet _ _)).
    rewrite (bind_return _ _ _ _ _ (emits_hint quiet _ _)).
    unfold raise.
    rewrite !effects_effects, !app_nil_r, !quiet_out_app. simpl.
    eexists. reflexivity.
  - rewrite (bind_return _ _ _ _ _ (emits_echo quiet _ _)).
    rewrite (bind_return _ _ _ _ _ (emits_hint quiet _ _)).
    match goal with
    | |- context [if quiet then mret () else ?echo ?msg] =>
        assert (emits (if quiet then mret () else echo msg) (quiet_out quiet [msg]))
          as Hinfra by (destruct quiet; [apply emits_ret | apply emits_click_echo]);
        rewrite (bind_return _ _ _ _ _ (Hinfra _)); clear Hinfra
    end.
    unfold mret, M_ret.
    rewrite !effects_effects, !app_nil_r, !quiet_out_app. simpl.
    eexists. reflexivity.
Qed.

Lemma check_capabilities_clouds_not_found env quiet verbose clouds capabilities st e :
  resolve_clouds_to_check env clouds = Raise e →
  check_capabilities env quiet verbose clouds capabilities st
  = (Raise e, effects st [] [] (quiet_out quiet [echo_checking])).
Proof.
  intros Hclouds. unfold check_capabilities.
  rewrite (bind_return _ _ _ _ _ (emits_echo quiet echo_checking st)).
  rewrite Hclouds. by rewrite (bind_raise _ _ _ _ _ (lift_run _ _)).
Qed.

Lemma check_capabilities_config_not_found env quiet verbose clouds capabilities st
    clouds_to_check e :
  resolve_clouds_to_check env clouds = Return clouds_to_check →
  resolve_config_allowed_cloud_names env = Raise e →
  check_capabilities env quiet verbose clouds capabilities st
  = (Raise e, effects st [] [] (quiet_out quiet [echo_checking])).
Proof.
  intros Hclouds Hnames. unfold check_capabilities.
  rewrite (bind_return _ _ _ _ _ (emits_echo quiet echo_checking st)).
  rewrite Hclouds, (bind_return _ _ _ _ _ (lift_run _ _)).
  rewrite Hnames. by rewrite (bind_raise _ _ _ _ _ (lift_run _ _)).
Qed.

(** ** Aggregation *)

Lemma listed_nil {K V} (k : K) (v : V) : ¬ listed [] k v.
Proof. intros [vs [H _]]. by apply elem_of_nil in H. Qed.

Lemma listed_cons {K V} (d : list (K * list V)) k0 vs0 k v :
  listed ((k0, vs0) :: d) k v ↔ (k = k0 ∧ v ∈ vs0) ∨ listed d k v.
Proof.
  unfold listed. split.
  - intros [vs [Hin Hv]]. apply elem_of_cons in Hin as [[= -> ->]|Hin]; eauto.
  - intros [[-> Hv]|[vs [Hin Hv]]].
    + exists vs0. split; [apply elem_of_cons; by left|done].
    + exists vs. split; [apply elem_of_cons; by right|done].
Qed.

Lemma listed_setdefault_append {K V} `{EqDecision K} (d : list (K * list V)) k0 v0 k v :
  listed (setdefault_append d k0 v0) k v ↔ listed d k v ∨ (k = k0 ∧ v = v0).
Proof.
  induction d as [|[k1 vs1] d IH]; simpl.
  - rewrite listed_cons, list_elem_of_singleton.
    split; [intros [?|H]; [by right|by apply listed_nil in H]|].
    intros [H|?]; [by apply listed_nil in H|by left].
  - destruct (decide (k1 = k0)) as [->|Hne].
    + rewrite !listed_cons, elem_of_app, list_elem_of_singleton. tauto.
    + rewrite !listed_cons, IH. tauto.
Qed.

Lemma zip_fmap_self {A B} (f : A → B) (l : list A) :
  zip l (f <$> l) = (λ x, (x, f x)) <$> l.
Proof. induction l as [|x l IH]; [done|]. rewrite !fmap_cons. simpl. by rewrite IH. Qed.

Section aggregate_facts.
Context (items : list ((CloudTuple * CloudCapability) * option CheckResult)).

Lemma listed_enabled_fold acc x c :
  listed (enabled_clouds (fold_left aggregate_step items acc)) x c
  ↔ listed (enabled_clouds acc) x c
    ∨ ∃ combination reason,
        (combination, Some (c, true, reason)) ∈ items ∧ combination.1.1 = x.
Proof.
  revert acc. induction items as [|[[cloud_tuple cap'] r] l IH]; intros acc; simpl.
  - split; [by left|]. intros [?|(? & ? & H & _)]; [done|by apply elem_of_nil in H].
  - rewrite IH. setoid_rewrite elem_of_cons.
    destruct r as [[[cap ok] reason]|]; simpl.
    + destruct ok; simpl.
      * rewrite listed_setdefault_append. split.
        -- intros [[?|[-> ->]]|(p & r & H & <-)]; [by left| |right; eauto].
           right. exists (cloud_tuple, cap'), reason. eauto.
        -- intros [?|(p & r & [[= -> -> ->]|H] & <-)]; [by left; left| |right; eauto].
           left. by right.
      * split.
        -- intros [?|(p & r & H & <-)]; [by left|right; eauto].
        -- intros [?|(p & r & [[=]|H] & <-)]; [by left|right; eauto].
    + split.
      * intros [?|(p & r & H & <-)]; [by left|right; eauto].
      * intros [?|(p & r & [[=]|H] & <-)]; [by left|right; eauto].
Qed.

Lemma listed_disabled_fold acc x c :
  listed (disabled_clouds (fold_left aggregate_step items acc)) x c
  ↔ listed (disabled_clouds acc) x c
    ∨ ∃ combination reason,
        (combination, Some (c, false, reason)) ∈ items ∧ combination.1.1 = x.
Proof.
  revert acc. induction items as [|[[cloud_tuple cap'] r] l IH]; intros acc; simpl.
  - split; [by left|]. intros [?|(? & ? & H & _)]; [done|by apply elem_of_nil in H].
  - rewrite IH. setoid_rewrite elem_of_cons.
    destruct r as [[[cap ok] reason]|]; simpl.
    + destruct ok; simpl.
      * split.
        -- intros [?|(p & r & H & <-)]; [by left|right; eauto].
        -- intros [?|(p & r & [[=]|H] & <-)]; [by left|right; eauto].
      * rewrite listed_setdefault_append. split.
        -- intros [[?|[-> ->]]|(p & r & H & <-)]; [by left| |right; eauto].
           right. exists (cloud_tuple, cap'), reason. eauto.
        -- intros [?|(p & r & [[= -> -> ->]|H] & <-)]; [by left; left| |right; eauto].
           left. by right.
    + split.
      * intros [?|(p & r & H & <-)]; [by left|right; eauto].
      * intros [?|(p & r & [[=]|H] & <-)]; [by left|right; eauto].
Qed.

Lemma listed_check_results_fold acc cloud_tuple r :
  listed (check_results_dict (fold_left aggregate_step items acc)) cloud_tuple r
  ↔ listed (check_results_dict acc) cloud_tuple r
    ∨ ∃ capability, ((cloud_tuple, capability), Some r) ∈ items.
Proof.
  revert acc. induction items as [|[[cloud_tuple' cap'] r'] l IH]; intros acc; simpl.
  - split; [by left|]. intros [?|(? & H)]; [done|by apply elem_of_nil in H].
  - rewrite IH. setoid_rewrite elem_of_cons.
    destruct r' as [[[cap ok] reason]|]; simpl.
    + rewrite listed_setdefault_append. split.
      * intros [[?|[-> ->]]|(p & H)]; [by left|right; eauto|right; eauto].
      * intros [?|(p & [[= -> -> ->]|H])]; [by left; left|left; by right|right; eauto].
    + split.
      * intros [?|(p & H)]; [by left|right; eauto].
      * intros [?|(p & [[=]|H])]; [by left|right; eauto].
Qed.
End aggregate_facts.

(** ** The sets of the reconciliation, read off the probes *)

Lemma probe_result_ok env combination c ok :
  (∃ reason, probe_result env combination = Some (c, ok, reason))
  ↔ combination.2 = c
    ∧ outcome_ok (check_credentials env combination.1.2 combination.2) = Some ok.
Proof.
  unfold probe_result, check_result_of.
  destruct (check_credentials _ _ _) as [ok' r| |stack]; simpl.
  - split; [intros [reason [= <- <-]]; done|]. intros [<- [= <-]]. eauto.
  - split; [intros [? [=]]|intros [_ [=]]].
  - split; [intros [reason [= <- <-]]; done|]. intros [<- [= <-]]. eauto.
Qed.

Lemma elem_of_clouds_with d c x :
  x ∈ clouds_with d c ↔ listed d x c ∧ ¬ PyStr.startswith x "Cloudflare".
Proof.
  unfold clouds_with, listed.
  rewrite elem_of_list_to_set, list_elem_of_fmap. split.
  - intros [[x' caps] [-> [[Hc Hp] Hin]%list_elem_of_filter]]. simpl in *. eauto.
  - intros [[caps [Hin Hc]] Hp]. exists (x, caps). split; [done|].
    apply list_elem_of_filter. eauto.
Qed.

Lemma elem_of_providers_with ok env combinations c x :
  x ∈ providers_with ok env combinations c
  ↔ ∃ combination reason,
      (combination, Some (c, ok, reason))
        ∈ zip combinations (probe_result env <$> combinations)
      ∧ combination.1.1 = x.
Proof.
  unfold providers_with.
  rewrite elem_of_list_to_set, list_elem_of_fmap, zip_fmap_self. split.
  - intros [p [-> [Hp Hin]%list_elem_of_filter]].
    apply probe_result_ok in Hp as [reason Hr].
    exists p, reason. split; [|done]. apply list_elem_of_fmap. exists p. by rewrite Hr.
  - intros (p & reason & [p' [[= <- Hr] Hin]]%list_elem_of_fmap & <-).
    exists p. split; [done|]. apply list_elem_of_filter. split; [|done].
    apply probe_result_ok. eauto.
Qed.

Lemma clouds_with_enabled env clouds_to_check names caps c :
  clouds_with (enabled_clouds (run_aggregate env clouds_to_check names caps)) c
  = real_clouds (providers_with true env (matrix clouds_to_check names caps) c).
Proof.
  apply set_eq. intros x. unfold real_clouds, run_aggregate, aggregate.
  rewrite elem_of_clouds_with, elem_of_filter, listed_enabled_fold, elem_of_providers_with.
  split; [intros [[H|?] ?]; [by apply listed_nil in H|done]|].
  intros [? ?]. split; [by right|done].
Qed.

Lemma clouds_with_disabled env clouds_to_check names caps c :
  clouds_with (disabled_clouds (run_aggregate env clouds_to_check names caps)) c
  = real_clouds (providers_with false env (matrix clouds_to_check names caps) c).
Proof.
  apply set_eq. intros x. unfold real_clouds, run_aggregate, aggregate.
  rewrite elem_of_clouds_with, elem_of_filter, listed_disabled_fold, elem_of_providers_with.
  split; [intros [[H|?] ?]; [by apply listed_nil in H|done]|].
  intros [? ?]. split; [by right|done].
Qed.

Lemma config_allowed_clouds_set_real names :
  config_allowed_clouds_set names = real_clouds (list_to_set names).
Proof.
  apply set_eq. intros x. unfold config_allowed_clouds_set, real_clouds.
  rewrite elem_of_list_to_set, list_elem_of_filter, elem_of_filter, elem_of_list_to_set.
  done.
Qed.

(** The set written for a capability, in terms of the probes. *)
Lemma new_enabled_run env clouds_to_check names caps db c :
  new_enabled (run_aggregate env clouds_to_check names caps) names db c
  = real_clouds (list_to_set names)
    ∩ ((real_clouds (db c)
        ∪ real_clouds (providers_with true env (matrix clouds_to_check names caps) c))
       ∖ real_clouds (providers_with false env (matrix clouds_to_check names caps) c)).
Proof.
  unfold new_enabled, enabled_clouds_for_capability.
  rewrite clouds_with_enabled, clouds_with_disabled, config_allowed_clouds_set_real.
  apply set_eq. intros x. unfold real_clouds.
  rewrite !elem_of_intersection, !elem_of_difference, !elem_of_union, !elem_of_filter.
  tauto.
Qed.

(** The state a run leaves behind when all names resolve. *)
Lemma check_capabilities_final_state env quiet verbose clouds capabilities st
    clouds_to_check names :
  resolve_clouds_to_check env clouds = Return clouds_to_check →
  resolve_config_allowed_cloud_names env = Return names →
  let caps := default ALL_CAPABILITIES capabilities in
  let agg := run_aggregate env clouds_to_check names caps in
  let st' := (check_capabilities env quiet verbose clouds capabilities st).2 in
  (∀ c, enabled_clouds_db st' c
        = if decide (c ∈ caps) then new_enabled agg names (enabled_clouds_db st) c
          else enabled_clouds_db st c)
  ∧ db_writes st'
    = db_writes st ++ ((λ c, (c, new_enabled agg names (enabled_clouds_db st) c)) <$> caps)
  ∧ probed st' = probed st ++ (probe_of <$> matrix clouds_to_check names caps).
Proof.
  intros Hclouds Hnames caps agg st'.
  destruct (check_capabilities_run env quiet verbose clouds capabilities st
              _ _ Hclouds Hnames) as [tail Hrun].
  subst st'. rewrite Hrun. simpl. split; [|done].
  intros c. apply apply_writes_lookup.
Qed.

(** ** The reconciled set that is persisted *)

(** C1. For every requested capability of a run whose names resolve, the set
    persisted by the run (the database entry after the run, which is also a
    write the run made) is
    [allowed ∩ ((previously_enabled ∪ newly_enabled) ∖ newly_disabled)], where
    the four sets are the resolved allow-list, the cached set before the run,
    the providers whose probe for the capability passed and those whose probe
    failed, each without the names that start with 'Cloudflare'; no such name
    is in the persisted set. *)
Theorem persisted_state_is_reconciled env quiet verbose clouds capabilities st
    clouds_to_check names c :
  resolve_clouds_to_check env clouds = Return clouds_to_check →
  resolve_config_allowed_cloud_names env = Return names →
  c ∈ default ALL_CAPABILITIES capabilities →
  let combinations :=
    matrix clouds_to_check names (default ALL_CAPABILITIES capabilities) in
  let st' := (check_capabilities env quiet verbose clouds capabilities st).2 in
  let allowed := real_clouds (list_to_set names) in
  let previously_enabled := real_clouds (enabled_clouds_db st c) in
  let newly_enabled := real_clouds (providers_with true env combinations c) in
  let newly_disabled := real_clouds (providers_with false env combinations c) in
  let new_enabled := allowed ∩ ((previously_enabled ∪ newly_enabled) ∖ newly_disabled) in
  enabled_clouds_db st' c = new_enabled
  ∧ (c, new_enabled) ∈ drop (length (db_writes st)) (db_writes st')
  ∧ ∀ x, x ∈ enabled_clouds_db st' c → ¬ PyStr.startswith x "Cloudflare".
Proof.
  intros Hclouds Hnames Hc combinations st' allowed previously_enabled
    newly_enabled newly_disabled new.
  destruct (check_capabilities_final_state env quiet verbose clouds capabilities st
              _ _ Hclouds Hnames) as (Hdb & Hws & _).
  fold st' in Hdb, Hws.
  assert (enabled_clouds_db st' c = new) as Hnew.
  { rewrite Hdb, decide_True by done. apply new_enabled_run. }
  split; [done|]. split.
  - rewrite Hws, drop_app_length. apply list_elem_of_fmap. exists c. split; [|done].
    f_equal. symmetry. apply new_enabled_run.
  - intros x. rewrite Hnew. unfold new, allowed, real_clouds.
    rewrite elem_of_intersection, elem_of_filter. tauto.
Qed.

Lemma persisted_state_is_reconciled_witness :
  let combinations := matrix demo_clouds_to_check demo_names ALL_CAPABILITIES in
  enabled_clouds_db
    (check_capabilities demo_env false false None None gcp_state).2 COMPUTE
  = real_clouds (list_to_set demo_names)
    ∩ ((real_clouds (enabled_clouds_db gcp_state COMPUTE)
        ∪ real_clouds (providers_with true demo_env combinations COMPUTE))
       ∖ real_clouds (providers_with false demo_env combinations COMPUTE)).
Proof.
  exact (proj1 (persisted_state_is_reconciled demo_env false false None None
                  gcp_state demo_clouds_to_check demo_names COMPUTE
                  eq_refl eq_refl (list_elem_of_here _ _))).
Defined.

(** ** The allow-list bounds what is persisted *)

Lemma new_enabled_allowed agg names db c x :
  x ∈ new_enabled agg names db c → x ∈ names.
Proof.
  unfold new_enabled, enabled_clouds_for_capability, config_allowed_clouds_set.
  rewrite elem_of_intersection, elem_of_list_to_set, list_elem_of_filter. tauto.
Qed.

(** C2. In a run whose names resolve, every set the run writes, and so the
    database entry of every requested capability after the run, is a subset
    of the resolved allow-list; nothing is assumed about the probes, so a name
    outside the allow-list stays out even when its probe passes. *)
Theorem persisted_state_within_allow_list env quiet verbose clouds capabilities st
    clouds_to_check names :
  resolve_clouds_to_check env clouds = Return clouds_to_check →
  resolve_config_allowed_cloud_names env = Return names →
  let st' := (check_capabilities env quiet verbose clouds capabilities st).2 in
  (∀ c, c ∈ default ALL_CAPABILITIES capabilities →
        enabled_clouds_db st' c ⊆ list_to_set names)
  ∧ (∀ w, w ∈ drop (length (db_writes st)) (db_writes st') →
          w.2 ⊆ list_to_set names).
Proof.
  intros Hclouds Hnames st'.
  destruct (check_capabilities_final_state env quiet verbose clouds capabilities st
              _ _ Hclouds Hnames) as (Hdb & Hws & _).
  fold st' in Hdb, Hws. split.
  - intros c Hc x. rewrite Hdb, decide_True by done.
    rewrite elem_of_list_to_set. apply new_enabled_allowed.
  - intros w. rewrite Hws, drop_app_length.
    intros [c [-> _]]%list_elem_of_fmap x. simpl.
    rewrite elem_of_list_to_set. apply new_enabled_allowed.
Qed.

Lemma persisted_state_within_allow_list_witness :
  enabled_clouds_db
    (check_capabilities demo_env false false None None gcp_state).2 COMPUTE
  ⊆ list_to_set demo_names.
Proof.
  exact (proj1 (persisted_state_within_allow_list demo_env false false None None
                  gcp_state demo_clouds_to_check demo_names eq_refl eq_refl)
               COMPUTE (list_elem_of_here _ _)).
Defined.

(** ** Idempotence *)

(** C6. Reconciling twice with the same allow-list and the same passed and
    failed sets gives what reconciling once gives: for the set expression of
    lines 154-156, and for the loop of lines 134-160 run a second time on the
    database the first run left. *)
Theorem reconciliation_idempotent :
  (∀ allowed passed failed S : gset string,
     let f := λ S, enabled_clouds_for_capability allowed S passed failed in
     f (f S) = f S)
  ∧ (∀ agg names capabilities acc acc' st c,
       let st1 := (reconcile agg names capabilities acc st).2 in
       let st2 := (reconcile agg names capabilities acc' st1).2 in
       enabled_clouds_db st2 c = enabled_clouds_db st1 c).
Proof.
  split.
  - intros allowed passed failed S f. unfold f, enabled_clouds_for_capability.
    apply set_eq. intros x.
    rewrite !elem_of_intersection, !elem_of_difference, !elem_of_union,
      !elem_of_intersection, !elem_of_difference, !elem_of_union.
    tauto.
  - intros agg names capabilities acc acc' st c st1 st2. subst st2 st1.
    rewrite !reconcile_run. simpl. rewrite !apply_writes_lookup.
    destruct (decide (c ∈ capabilities)); [|done].
    unfold new_enabled at 1. rewrite apply_writes_lookup, decide_True by done.
    apply enabled_clouds_for_capability_idem.
Qed.

Lemma reconciliation_idempotent_witness :
  let f := λ S : gset string,
    enabled_clouds_for_capability {["AWS"; "GCP"]} S {["GCP"]} {["AWS"]} in
  f (f {["AWS"; "Azure"]}) = f {["AWS"; "Azure"]}.
Proof.
  exact (proj1 reconciliation_idempotent {["AWS"; "GCP"]} {["GCP"]} {["AWS"]}
           {["AWS"; "Azure"]}).
Defined.

(** ** One write per requested capability *)

Lemma writes_to_absent (g : CloudCapability → gset string) caps c :
  c ∉ caps → filter (λ w, w.1 = c) ((λ c, (c, g c)) <$> caps) = [].
Proof.
  induction caps as [|c0 l IH]; [done|].
  rewrite not_elem_of_cons. intros [Hne Hnotin].
  rewrite fmap_cons, filter_cons. simpl.
  rewrite decide_False by done. by apply IH.
Qed.

Lemma writes_to_once (g : CloudCapability → gset string) caps c :
  NoDup caps → c ∈ caps →
  length (filter (λ w, w.1 = c) ((λ c, (c, g c)) <$> caps)) = 1.
Proof.
  induction 1 as [|c0 l Hnotin Hnodup IH]; [by intros ?%elem_of_nil|].
  rewrite fmap_cons, filter_cons. simpl. intros Hc.
  destruct (decide (c0 = c)) as [->|Hne].
  - simpl. by rewrite writes_to_absent.
  - apply IH. apply elem_of_cons in Hc as [->|?]; done.
Qed.

(** C8. In a run whose names resolve, the writes of the run are one per
    entry of the requested capability list, in the order of the list, whatever
    the reconciled sets are (empty or equal to the cached set included) and
    whether or not the run ends in SystemExit; the set written for a
    capability is built from the cached set and the probes of that capability
    alone; a capability listed once is written exactly once; the entries of
    the capabilities that were not requested are left as they were. *)
Theorem one_write_per_requested_capability env quiet verbose clouds capabilities st
    clouds_to_check names :
  resolve_clouds_to_check env clouds = Return clouds_to_check →
  resolve_config_allowed_cloud_names env = Return names →
  let caps := default ALL_CAPABILITIES capabilities in
  let combinations := matrix clouds_to_check names caps in
  let st' := (check_capabilities env quiet verbose clouds capabilities st).2 in
  let reconciled := λ c,
    real_clouds (list_to_set names)
    ∩ ((real_clouds (enabled_clouds_db st c)
        ∪ real_clouds (providers_with true env combinations c))
       ∖ real_clouds (providers_with false env combinations c)) in
  ∃ ws,
    db_writes st' = db_writes st ++ ws
    ∧ ws = (λ c, (c, reconciled c)) <$> caps
    ∧ (∀ c, c ∈ caps → enabled_clouds_db st' c = reconciled c)
    ∧ (∀ c, c ∉ caps → enabled_clouds_db st' c = enabled_clouds_db st c)
    ∧ (NoDup caps →
       ∀ c, c ∈ caps → length (filter (λ w, w.1 = c) ws) = 1).
Proof.
  intros Hclouds Hnames caps combinations st' reconciled.
  destruct (check_capabilities_final_state env quiet verbose clouds capabilities st
              _ _ Hclouds Hnames) as (Hdb & Hws & _).
  fold st' caps in Hdb, Hws.
  assert (∀ c, new_enabled (run_aggregate env clouds_to_check names caps) names
                 (enabled_clouds_db st) c = reconciled c) as Hnew
    by (intros; apply new_enabled_run).
  eexists. split; [exact Hws|]. split; [|split; [|split]].
  - apply list_fmap_ext. intros _ c _. by rewrite Hnew.
  - intros c Hc. by rewrite Hdb, decide_True.
  - intros c Hc. by rewrite Hdb, decide_False.
  - intros Hnodup c Hc. by apply writes_to_once.
Qed.

Lemma one_write_per_requested_capability_witness :
  ∃ ws,
    db_writes (check_capabilities demo_env false false None None gcp_state).2
    = db_writes gcp_state ++ ws
    ∧ ws.*1 = ALL_CAPABILITIES.
Proof.
  destruct (one_write_per_requested_capability demo_env false false None None
              gcp_state demo_clouds_to_check demo_names eq_refl eq_refl)
    as (ws & Hws & Hform & _).
  exists ws. split; [exact Hws|].
  rewrite Hform, <- list_fmap_compose. apply list_fmap_id.
Defined.

(** ** The terminal condition *)

Lemma providers_with_true_empty env combinations c :
  zero_providers_pass env combinations → providers_with true env combinations c = ∅.
Proof.
  intros Hzero. apply set_eq. intros x. unfold providers_with.
  rewrite elem_of_list_to_set, list_elem_of_fmap. split; [|by intros ?%not_elem_of_empty].
  intros [p [_ [[_ Hok] Hin]%list_elem_of_filter]]. by destruct (Hzero p Hin).
Qed.

(** C3, as the code has it. In a run whose names resolve, SystemExit is
    raised exactly when the union of the sets written for the requested
    capabilities is empty, and the run returns the dictionary of enabled
    clouds otherwise. When no probe passes, that is the case exactly when, for
    every requested capability, every cached provider that is allowed and not
    a pseudo-provider failed its probe in this run; in particular when the
    cached sets of the requested capabilities are empty. *)
Theorem system_exit_iff_nothing_enabled env quiet verbose clouds capabilities st
    clouds_to_check names :
  resolve_clouds_to_check env clouds = Return clouds_to_check →
  resolve_config_allowed_cloud_names env = Return names →
  let caps := default ALL_CAPABILITIES capabilities in
  let combinations := matrix clouds_to_check names caps in
  let run := check_capabilities env quiet verbose clouds capabilities st in
  let written := drop (length (db_writes st)) (db_writes run.2) in
  (run.1 = Raise SystemExit ↔ ⋃ (written.*2) = ∅)
  ∧ (run.1 ≠ Raise SystemExit → ∃ enabled, run.1 = Return enabled)
  ∧ (zero_providers_pass env combinations →
       (run.1 = Raise SystemExit
        ↔ ∀ c x, c ∈ caps → x ∈ enabled_clouds_db st c → x ∈ names →
                 ¬ PyStr.startswith x "Cloudflare" →
                 x ∈ providers_with false env combinations c)
       ∧ ((∀ c, c ∈ caps → enabled_clouds_db st c = ∅) → run.1 = Raise SystemExit)).
Proof.
  intros Hclouds Hnames caps combinations run written.
  destruct (check_capabilities_run env quiet verbose clouds capabilities st
              _ _ Hclouds Hnames) as [tail Hrun].
  fold caps run in Hrun.
  set (agg := run_aggregate env clouds_to_check names caps) in Hrun.
  assert (written.*2 = new_enabled agg names (enabled_clouds_db st) <$> caps) as Hwritten.
  { unfold written. rewrite Hrun. simpl. rewrite drop_app_length.
    by rewrite <- list_fmap_compose. }
  assert (run.1 = Raise SystemExit ↔ ⋃ (written.*2) = ∅) as Hexit.
  { rewrite Hwritten, Hrun. simpl. by destruct (decide _). }
  split; [exact Hexit|]. split.
  { rewrite Hrun. simpl. destruct (decide _); [done|eauto]. }
  intros Hzero.
  assert (run.1 = Raise SystemExit
          ↔ ∀ c x, c ∈ caps → x ∈ enabled_clouds_db st c → x ∈ names →
                   ¬ PyStr.startswith x "Cloudflare" →
                   x ∈ providers_with false env combinations c) as Hzero_exit.
  { rewrite Hexit, Hwritten, empty_union_list_L, Forall_fmap, Forall_forall.
    split.
    - intros Hall c x Hc Hx Hxn Hcf. specialize (Hall c Hc). simpl in Hall.
      unfold agg in Hall. rewrite new_enabled_run in Hall. fold combinations in Hall.
      destruct (decide (x ∈ providers_with false env combinations c)) as [|Hnf]; [done|].
      exfalso. apply (not_elem_of_empty (C := gset string) x). rewrite <- Hall.
      unfold real_clouds.
      rewrite elem_of_intersection, elem_of_difference, elem_of_union,
        !elem_of_filter, elem_of_list_to_set.
      tauto.
    - intros Hall c Hc. simpl. unfold agg. rewrite new_enabled_run.
      fold combinations. rewrite providers_with_true_empty by done.
      apply set_eq. intros x. unfold real_clouds.
      rewrite elem_of_intersection, elem_of_difference, elem_of_union,
        !elem_of_filter, elem_of_list_to_set.
      split; [|by intros ?%not_elem_of_empty].
      intros [[Hcf Hxn] [[[_ Hx]|[_ Hx%not_elem_of_empty]] Hnf]]; [|done].
      exfalso. apply Hnf. split; [done|]. by apply (Hall c x). }
  split; [exact Hzero_exit|].
  intros Hfresh. apply Hzero_exit. intros c x Hc Hx.
  rewrite Hfresh in Hx by done. by apply not_elem_of_empty in Hx.
Qed.

Lemma system_exit_iff_nothing_enabled_witness :
  let run := check_capabilities demo_env false false (Some ["aws"]) (Some [COMPUTE])
               fresh_state in
  run.1 = Raise SystemExit
  ↔ ⋃ ((drop (length (db_writes fresh_state)) (db_writes run.2)).*2) = ∅.
Proof.
  exact (proj1 (system_exit_iff_nothing_enabled demo_env false false (Some ["aws"])
                  (Some [COMPUTE]) fresh_state [("AWS", cloud_object "AWS")]
                  demo_names eq_refl eq_refl)).
Defined.

(** C3, as the claim states it, fails: GCP is cached for COMPUTE, only AWS is
    requested and its COMPUTE probe, the only one made, fails; no provider
    passes, yet the run returns (with an empty dictionary) and GCP stays
    enabled. *)
Lemma zero_passes_without_system_exit :
  let run := check_capabilities demo_env false false (Some ["aws"]) (Some [COMPUTE])
               gcp_state in
  zero_providers_pass demo_env
    (matrix [("AWS", cloud_object "AWS")] demo_names [COMPUTE])
  ∧ probed run.2 = [(cloud_object "AWS", COMPUTE)]
  ∧ outcome_ok (check_credentials demo_env (cloud_object "AWS") COMPUTE) = Some false
  ∧ run.1 = Return []
  ∧ run.1 ≠ Raise SystemExit
  ∧ elements (enabled_clouds_db run.2 COMPUTE) = ["GCP"].
Proof.
  intros run.
  assert (run.1 = Return []) as Hrun by (vm_compute; reflexivity).
  split; [|split; [|split; [|split; [|split]]]].
  - intros p Hp. vm_compute in Hp.
    apply list_elem_of_singleton in Hp as ->. by vm_compute.
  - vm_compute. reflexivity.
  - vm_compute. reflexivity.
  - exact Hrun.
  - rewrite Hrun. discriminate.
  - vm_compute. reflexivity.
Qed.

(** ** Unresolvable names *)

Lemma get_cloud_tuple_raise env cloud_name :
  unresolvable env cloud_name →
  get_cloud_tuple env cloud_name = Raise (CloudNotFound cloud_name).
Proof. intros [Hcf Hreg]. unfold get_cloud_tuple. by rewrite Hcf, Hreg. Qed.

Lemma get_cloud_tuple_raise_inv env cloud_name e :
  get_cloud_tuple env cloud_name = Raise e →
  e = CloudNotFound cloud_name ∧ unresolvable env cloud_name.
Proof.
  unfold get_cloud_tuple, unresolvable.
  destruct (PyStr.startswith _ _); [done|].
  destruct (registry_from_str env cloud_name); [done|]. by intros [= <-].
Qed.

Lemma resolve_raises env cloud_list cloud_name :
  cloud_name ∈ cloud_list → unresolvable env cloud_name →
  ∃ bad, mapM (get_cloud_tuple env) cloud_list = Raise (CloudNotFound bad)
         ∧ bad ∈ cloud_list ∧ unresolvable env bad.
Proof.
  intros Hin Hbad. induction cloud_list as [|c l IH]; [by apply elem_of_nil in Hin|].
  simpl. destruct (get_cloud_tuple env c) as [t|e] eqn:Hc.
  - apply elem_of_cons in Hin as [->|Hin].
    + by rewrite get_cloud_tuple_raise in Hc.
    + destruct (IH Hin) as (bad & -> & Hbadin & Hunres).
      exists bad. split; [done|]. split; [by apply elem_of_cons; right|done].
  - apply get_cloud_tuple_raise_inv in Hc as [-> Hunres].
    exists c. split; [done|]. split; [by apply elem_of_cons; left|done].
Qed.

(** C9. When a requested name (a name of the default list when none is
    requested) is not a Cloudflare name and does not resolve in the registry,
    the run raises the not-found error for an unresolvable requested name;
    no probe has been made and the database has not been written: the only
    effect is the opening message. *)
Theorem unresolvable_provider_fails_before_probing env quiet verbose clouds
    capabilities st cloud_name :
  cloud_name ∈ default (get_all_clouds env) clouds →
  unresolvable env cloud_name →
  let run := check_capabilities env quiet verbose clouds capabilities st in
  (∃ bad, run.1 = Raise (CloudNotFound bad)
          ∧ bad ∈ default (get_all_clouds env) clouds ∧ unresolvable env bad)
  ∧ probed run.2 = probed st
  ∧ db_writes run.2 = db_writes st
  ∧ enabled_clouds_db run.2 = enabled_clouds_db st
  ∧ echoed run.2 = echoed st ++ quiet_out quiet [echo_checking].
Proof.
  intros Hin Hbad run.
  destruct (resolve_raises env _ _ Hin Hbad) as (bad & Hraise & Hbadin & Hunres).
  subst run.
  rewrite (check_capabilities_clouds_not_found env quiet verbose clouds capabilities
             st (CloudNotFound bad)) by exact Hraise.
  simpl. rewrite !app_nil_r. eauto 10.
Qed.

Lemma unresolvable_provider_fails_before_probing_witness :
  let run := check_capabilities demo_env false false (Some ["aws"; "azure"]) None
               gcp_state in
  probed run.2 = probed gcp_state ∧ db_writes run.2 = db_writes gcp_state.
Proof.
  pose proof (unresolvable_provider_fails_before_probing demo_env false false
                (Some ["aws"; "azure"]) None gcp_state "azure"
                (list_elem_of_further _ _ _ (list_elem_of_here _ _))
                (conj eq_refl eq_refl)) as (_ & Hp & Hw & _).
  exact (conj Hp Hw).
Defined.

(** ** get_cached_enabled_clouds_or_refresh *)

Lemma elem_of_matrix_snd clouds_to_check names caps p :
  p ∈ matrix clouds_to_check names caps → p.2 ∈ caps.
Proof.
  unfold matrix. rewrite !list_elem_of_In. destruct p as [t c].
  rewrite in_prod_iff. simpl. tauto.
Qed.

(** C10. With a non-empty cache for the requested capability the function
    returns that set and leaves the state as it was: no check runs. With an
    empty cache, and names that resolve, it runs
    [check_capabilities(quiet=True, capabilities=[COMPUTE])] on all clouds,
    whether that check returns or raises SystemExit: the new probes and the
    one new write are for COMPUTE whatever capability was requested; then it
    reads the cache of the requested capability again. NoCloudAccessError is
    raised exactly when the flag is set and that cache is empty at the end. *)
Theorem cached_enabled_clouds_or_refresh env capability
    (raise_if_no_cloud_access : bool) st :
  let run :=
    get_cached_enabled_clouds_or_refresh env capability raise_if_no_cloud_access st in
  (enabled_clouds_db st capability ≠ ∅ →
   run = (Return (enabled_clouds_db st capability), st))
  ∧ (∀ clouds_to_check names,
       resolve_clouds_to_check env None = Return clouds_to_check →
       resolve_config_allowed_cloud_names env = Return names →
       let refresh := check_capabilities env true false None (Some [COMPUTE]) st in
       (enabled_clouds_db st capability = ∅ →
        run.2 = refresh.2
        ∧ (refresh.1 = Raise SystemExit ∨ ∃ enabled, refresh.1 = Return enabled)
        ∧ Forall (λ p, p.2 = COMPUTE) (drop (length (probed st)) (probed run.2))
        ∧ (drop (length (db_writes st)) (db_writes run.2)).*1 = [COMPUTE]
        ∧ run.1 = (if raise_if_no_cloud_access
                      && bool_decide (enabled_clouds_db run.2 capability = ∅)
                   then Raise NoCloudAccessError
                   else Return (enabled_clouds_db run.2 capability)))
       ∧ (run.1 = Raise NoCloudAccessError
          ↔ raise_if_no_cloud_access = true
            ∧ enabled_clouds_db run.2 capability = ∅)).
Proof.
  intros run.
  assert (enabled_clouds_db st capability ≠ ∅ →
          run = (Return (enabled_clouds_db st capability), st)) as Hcached.
  { intros Hne. subst run. unfold get_cached_enabled_clouds_or_refresh.
    unfold mbind at 1, M_bind at 1, get_cached_enabled_clouds at 1.
    rewrite decide_False by done.
    unfold mbind, M_bind, mret, M_ret.
    rewrite bool_decide_eq_false_2 by done. by rewrite andb_false_r. }
  split; [exact Hcached|].
  intros clouds_to_check names Hclouds Hnames refresh.
  assert (enabled_clouds_db st capability = ∅ →
          run.2 = refresh.2
          ∧ (refresh.1 = Raise SystemExit ∨ ∃ enabled, refresh.1 = Return enabled)
          ∧ run.1 = (if raise_if_no_cloud_access
                        && bool_decide (enabled_clouds_db run.2 capability = ∅)
                     then Raise NoCloudAccessError
                     else Return (enabled_clouds_db run.2 capability))) as Hrefresh.
  { intros Hempty.
    assert (refresh.1 = Raise SystemExit ∨ ∃ enabled, refresh.1 = Return enabled)
      as Habsorbed.
    { subst refresh.
      destruct (check_capabilities_run env true false None (Some [COMPUTE]) st
                  _ _ Hclouds Hnames) as [tail ->].
      simpl. destruct (decide _); eauto. }
    assert (run = (if raise_if_no_cloud_access
                      && bool_decide (enabled_clouds_db refresh.2 capability = ∅)
                   then Raise NoCloudAccessError
                   else Return (enabled_clouds_db refresh.2 capability),
                   refresh.2)) as ->.
    { subst run. unfold get_cached_enabled_clouds_or_refresh.
      unfold mbind at 1, M_bind at 1, get_cached_enabled_clouds at 1.
      rewrite decide_True by done.
      unfold check_capability, try_except_SystemExit.
      unfold mbind, M_bind, mret, M_ret, get_cached_enabled_clouds, raise.
      fold refresh. destruct refresh as [r st1]. simpl in *.
      destruct Habsorbed as [->|[enabled ->]];
        destruct (raise_if_no_cloud_access && bool_decide _); done. }
    cbn [fst snd]. split; [reflexivity|]. split; [exact Habsorbed|reflexivity]. }
  split.
  - intros Hempty. destruct (Hrefresh Hempty) as (Hst & Habsorbed & Hres).
    split; [done|]. split; [done|].
    destruct (check_capabilities_final_state env true false None (Some [COMPUTE]) st
                _ _ Hclouds Hnames) as (_ & Hws & Hps).
    fold refresh in Hws, Hps.
    split; [|split; [|exact Hres]].
    + rewrite Hst, Hps, drop_app_length.
      apply Forall_fmap, Forall_forall. intros p Hp%elem_of_matrix_snd.
      by apply list_elem_of_singleton in Hp.
    + by rewrite Hst, Hws, drop_app_length.
  - destruct (decide (enabled_clouds_db st capability = ∅)) as [Hempty|Hne].
    + destruct (Hrefresh Hempty) as (_ & _ & ->).
      destruct raise_if_no_cloud_access; simpl.
      * destruct (bool_decide_reflect (enabled_clouds_db run.2 capability = ∅));
          naive_solver.
      * naive_solver.
    + rewrite (Hcached Hne). simpl. naive_solver.
Qed.

Lemma cached_enabled_clouds_or_refresh_witness :
  let run := get_cached_enabled_clouds_or_refresh demo_env STORAGE true fresh_state in
  run.1 = Raise NoCloudAccessError
  ↔ true = true ∧ enabled_clouds_db run.2 STORAGE = ∅.
Proof.
  exact (proj2 (proj2 (cached_enabled_clouds_or_refresh demo_env STORAGE true
                         fresh_state)
                  demo_clouds_to_check demo_names eq_refl eq_refl)).
Defined.

(** ** The dispatcher *)

(** C5. Given the list of eligible pairs, the dispatcher returns (it never
    raises) a list with one optional result per pair, the i-th result being
    the adapter's result for the i-th pair: a check result for the pair's own
    capability when the probe did not signal 'not supported', and no result
    when it did. Each pair is probed once, in the order of the list, and the
    empty list gives the empty list. *)
Theorem dispatcher_one_result_per_pair env combinations st :
  let run := run_in_parallel (check_one_cloud_one_capability env) combinations st in
  ∃ check_results,
    run.1 = Return check_results
    ∧ length check_results = length combinations
    ∧ (∀ i (p : CloudTuple * CloudCapability), combinations !! i = Some p →
         ∃ r, check_results !! i = Some r
              ∧ (check_one_cloud_one_capability env p st).1 = Return r
              ∧ (check_credentials env p.1.2 p.2 ≠ raises_NotSupportedError →
                 ∃ ok reason, r = Some (p.2, ok, reason))
              ∧ (check_credentials env p.1.2 p.2 = raises_NotSupportedError →
                 r = None))
    ∧ (combinations = [] → check_results = [])
    ∧ probed run.2
      = probed st ++ ((λ p : CloudTuple * CloudCapability, (p.1.2, p.2)) <$> combinations).
Proof.
  intros run. subst run. rewrite run_in_parallel_run. simpl.
  exists (probe_result env <$> combinations).
  split; [done|]. split; [apply length_fmap|]. split; [|split; [by intros ->|done]].
  intros i p Hp. exists (probe_result env p).
  split; [by rewrite list_lookup_fmap, Hp|].
  split; [by rewrite check_one_cloud_one_capability_run|].
  unfold probe_result, check_result_of.
  destruct (check_credentials env p.1.2 p.2); split; intros H; try done; eauto.
Qed.

Lemma dispatcher_one_result_per_pair_witness :
  ∃ check_results,
    (run_in_parallel (check_one_cloud_one_capability demo_env)
       (matrix demo_clouds_to_check demo_names ALL_CAPABILITIES) fresh_state).1
    = Return check_results
    ∧ length check_results = 6.
Proof.
  destruct (dispatcher_one_result_per_pair demo_env
              (matrix demo_clouds_to_check demo_names ALL_CAPABILITIES) fresh_state)
    as (check_results & Hrun & Hlen & _).
  exists check_results. split; [exact Hrun|exact Hlen].
Defined.

(** ** The probe adapter *)

Lemma elem_of_cloud_lines env verbose agg cloud_tuple results :
  (cloud_tuple, results) ∈ check_results_dict agg →
  ∃ caps, echo_cloud cloud_tuple.1 caps ∈ cloud_lines env verbose agg.
Proof.
  intros Hin. unfold cloud_lines.
  apply (PyStrFacts.elem_of_sorted (λ item : CloudTuple * list CheckResult, item.1.1))
    in Hin.
  pose proof (list_elem_of_fmap_2
                (λ item : CloudTuple * list CheckResult,
                   print_checked_cloud_lines env verbose item.1 item.2) _ _ Hin)
    as Hlines.
  simpl in Hlines. destruct cloud_tuple as [cloud_repr cloud].
  unfold print_checked_cloud_lines in Hlines at 1.
  destruct (fold_left print_step results ([], [], [])) as [[en hints] reasons].
  exists en. apply list_elem_of_In, in_concat. eexists.
  split; [apply list_elem_of_In, Hlines|]. by left.
Qed.

Lemma format_exc_strip_nonempty stack : PyStr.strip (format_exc stack) ≠ EmptyString.
Proof. unfold format_exc. by apply PyStrFacts.strip_nonempty. Qed.

Lemma probed_pair_has_results env clouds_to_check names caps cloud_tuple capability :
  (cloud_tuple, capability) ∈ matrix clouds_to_check names caps →
  check_credentials env cloud_tuple.2 capability ≠ raises_NotSupportedError →
  ∃ results,
    (cloud_tuple, results) ∈ check_results_dict (run_aggregate env clouds_to_check names caps).
Proof.
  intros Hin Hsup.
  destruct (probe_result env (cloud_tuple, capability)) as [r|] eqn:Hr.
  2:{ unfold probe_result, check_result_of in Hr. simpl in Hr.
      by destruct (check_credentials env cloud_tuple.2 capability). }
  assert (listed (check_results_dict (run_aggregate env clouds_to_check names caps))
            cloud_tuple r) as [results [Hres _]]; [|eauto].
  unfold run_aggregate, aggregate. apply listed_check_results_fold. right.
  exists capability. rewrite zip_fmap_self. apply list_elem_of_fmap.
  exists (cloud_tuple, capability). by rewrite Hr.
Qed.

(** C4. The adapter returns no result when [check_credentials] raises
    NotSupportedError. When it raises another exception the adapter returns a
    result with [ok = False] whose reason is the traceback text without its
    surrounding whitespace, which is not empty. The failure stays local: in
    the dispatcher every pair gets the result of its own probe whatever the
    probes of the other pairs do, and a run that is not quiet echoes a status
    line for every eligible provider with at least one supported
    capability. *)
Theorem probe_failures_are_isolated env cloud_tuple capability st :
  let run := check_one_cloud_one_capability env (cloud_tuple, capability) st in
  (check_credentials env cloud_tuple.2 capability = raises_NotSupportedError →
   run.1 = Return None)
  ∧ (∀ stack,
       check_credentials env cloud_tuple.2 capability = raises_Exception stack →
       ∃ reason,
         run.1 = Return (Some (capability, false, Some (reason_str reason)))
         ∧ reason = PyStr.strip (format_exc stack)
         ∧ reason ≠ EmptyString
         ∧ ∃ pre post,
             format_exc stack = String.append pre (String.append reason post)
             ∧ PyStr.all_space pre = true ∧ PyStr.all_space post = true)
  ∧ (∀ env' combinations i (p : CloudTuple * CloudCapability),
       combinations !! i = Some p →
       check_credentials env' p.1.2 p.2 = check_credentials env p.1.2 p.2 →
       ∃ rs rs',
         (run_in_parallel (check_one_cloud_one_capability env) combinations st).1
         = Return rs
         ∧ (run_in_parallel (check_one_cloud_one_capability env') combinations st).1
           = Return rs'
         ∧ rs !! i = rs' !! i ∧ is_Some (rs !! i))
  ∧ (∀ verbose clouds capabilities clouds_to_check names capability',
       resolve_clouds_to_check env clouds = Return clouds_to_check →
       resolve_config_allowed_cloud_names env = Return names →
       (cloud_tuple, capability')
         ∈ matrix clouds_to_check names (default ALL_CAPABILITIES capabilities) →
       check_credentials env cloud_tuple.2 capability' ≠ raises_NotSupportedError →
       ∃ caps,
         echo_cloud cloud_tuple.1 caps
           ∈ echoed (check_capabilities env false verbose clouds capabilities st).2).
Proof.
  intros run. subst run. rewrite check_one_cloud_one_capability_run.
  unfold probe_result, check_result_of. simpl.
  split; [by intros ->|]. split; [|split].
  - intros stack ->. simpl. exists (PyStr.strip (format_exc stack)).
    split; [done|]. split; [done|]. split; [apply format_exc_strip_nonempty|].
    destruct (PyStrFacts.strip_spec (format_exc stack)) as [Hsplit _]. exact Hsplit.
  - intros env' combinations i p Hp Hsame. rewrite !run_in_parallel_run.
    cbn [fst snd].
    exists (probe_result env <$> combinations), (probe_result env' <$> combinations).
    split; [done|]. split; [done|].
    rewrite !list_lookup_fmap, Hp. cbn [fmap option_fmap option_map]. split; [|eauto].
    unfold probe_result. by rewrite Hsame.
  - intros verbose clouds capabilities clouds_to_check names capability'
      Hclouds Hnames Hin Hsup.
    destruct (check_capabilities_run env false verbose clouds capabilities st
                _ _ Hclouds Hnames) as [tail ->].
    destruct (probed_pair_has_results env _ _ _ _ _ Hin Hsup) as [results Hres].
    destruct (elem_of_cloud_lines env verbose _ _ _ Hres) as [caps Hline].
    exists caps. simpl. rewrite elem_of_app, elem_of_cons, elem_of_app. tauto.
Qed.

Lemma probe_failures_are_isolated_witness :
  ∃ caps,
    echo_cloud "AWS" caps
      ∈ echoed (check_capabilities demo_env false false None None fresh_state).2.
Proof.
  exact (proj2 (proj2 (proj2
    (probe_failures_are_isolated demo_env ("AWS", cloud_object "AWS") STORAGE
       fresh_state)))
    false None None demo_clouds_to_check demo_names STORAGE eq_refl eq_refl
    (list_elem_of_further _ _ _ (list_elem_of_here _ _))
    ltac:(discriminate)).
Defined.

(** ** Reasons *)

(** C7. For a probe that returns [(ok, reason)] the adapter returns the same
    [ok]; a mapping reason is returned as it is; a string reason that is not
    empty is returned without its leading and trailing whitespace (the
    characters between are kept); the empty string and [None] are returned as
    [None]. *)
Theorem reason_is_normalized env cloud_tuple capability st ok reason :
  check_credentials env cloud_tuple.2 capability = returns ok reason →
  ∃ reason',
    (check_one_cloud_one_capability env (cloud_tuple, capability) st).1
    = Return (Some (capability, ok, reason'))
    ∧ match reason with
      | Some (reason_dict ctx2text) => reason' = Some (reason_dict ctx2text)
      | Some (reason_str EmptyString) | None => reason' = None
      | Some (reason_str s) =>
          ∃ pre trimmed post,
            reason' = Some (reason_str trimmed)
            ∧ trimmed = PyStr.strip s
            ∧ s = String.append pre (String.append trimmed post)
            ∧ PyStr.all_space pre = true ∧ PyStr.all_space post = true
            ∧ PyStr.starts_clean trimmed = true
            ∧ PyStr.ends_clean trimmed = true
      end.
Proof.
  intros Hret. rewrite check_one_cloud_one_capability_run.
  unfold probe_result, check_result_of. simpl. rewrite Hret.
  eexists. split; [reflexivity|].
  destruct reason as [[s|d]|]; simpl; [|done|done].
  destruct s as [|a s]; simpl; [done|].
  destruct (PyStrFacts.strip_spec (String a s)) as [(pre & post & Hs & Hpre & Hpost) [H1 H2]].
  exists pre, (PyStr.strip (String a s)), post. done.
Qed.

Lemma reason_is_normalized_witness :
  (check_one_cloud_one_capability demo_env (("AWS", cloud_object "AWS"), COMPUTE)
     fresh_state).1
  = Return (Some (COMPUTE, false, Some (reason_str "no credentials"))).
Proof.
  destruct (reason_is_normalized demo_env ("AWS", cloud_object "AWS") COMPUTE
              fresh_state false (Some (reason_str "  no credentials  ")) eq_refl)
    as (reason' & Hrun & pre & trimmed & post & -> & -> & _).
  exact Hrun.
Defined.

(** ** Worked examples *)

(** A full run on the sample world from an empty database: AWS fails both
    probes, GCP passes both, Cloudflare passes STORAGE and does not support
    COMPUTE. Cloudflare is returned to the caller and is not persisted. *)
Example full_run_on_sample_world :
  let run := check_capabilities demo_env true false None None fresh_state in
  run.1 = Return [("GCP", [COMPUTE; STORAGE]); ("Cloudflare", [STORAGE])]
  ∧ (λ w : CloudCapability * gset string, (w.1, elements w.2)) <$> db_writes run.2
    = [(COMPUTE, ["GCP"]); (STORAGE, ["GCP"])]
  ∧ probed run.2
    = [(cloud_object "AWS", COMPUTE); (cloud_object "AWS", STORAGE);
       (cloud_object "GCP", COMPUTE); (cloud_object "GCP", STORAGE);
       (cloudflare, COMPUTE); (cloudflare, STORAGE)].
Proof. vm_compute. done. Qed.

(** A capability listed twice is reconciled and written twice, with the same
    set. *)
Example capability_listed_twice :
  (λ w : CloudCapability * gset string, (w.1, elements w.2))
    <$> db_writes (check_capabilities demo_env true false None
                     (Some [COMPUTE; COMPUTE]) fresh_state).2
  = [(COMPUTE, ["GCP"]); (COMPUTE, ["GCP"])].
Proof. vm_compute. done. Qed.

(** A reason made of whitespace only is truthy: it is stripped to the empty
    string and is not turned into [None]. *)
Example whitespace_reason : normalize_reason (Some (reason_str "  ")) = Some (reason_str "").
Proof. reflexivity. Qed.

(** With an empty cache for STORAGE the refresh checks COMPUTE only, so the
    cache of STORAGE is still empty afterwards. *)
Example refresh_for_storage :
  let run := get_cached_enabled_clouds_or_refresh demo_env STORAGE true fresh_state in
  run.1 = Raise NoCloudAccessError
  ∧ (λ w : CloudCapability * gset string, (w.1, elements w.2)) <$> db_writes run.2
    = [(COMPUTE, ["GCP"])].
Proof. vm_compute. done. Qed.

(** * Further properties *)

(** ** One run of check_capabilities, with what it echoes *)

Lemma check_capabilities_run_full env quiet verbose clouds capabilities st
    clouds_to_check names :
  resolve_clouds_to_check env clouds = Return clouds_to_check →
  resolve_config_allowed_cloud_names env = Return names →
  let caps := default ALL_CAPABILITIES capabilities in
  let agg := run_aggregate env clouds_to_check names caps in
  let all_enabled := ⋃ (new_enabled agg names (enabled_clouds_db st) <$> caps) in
  check_capabilities env quiet verbose clouds capabilities st
  = (if decide (all_enabled = ∅)
     then Raise SystemExit else Return (enabled_clouds agg),
     effects st
       ((λ c, (c, new_enabled agg names (enabled_clouds_db st) c)) <$> caps)
       (probe_of <$> matrix clouds_to_check names caps)
       (quiet_out quiet
          (echo_checking
           :: cloud_lines env verbose agg
           ++ closing_lines env clouds names agg (bool_decide (all_enabled = ∅))))).
Proof.
  intros Hclouds Hnames caps agg all_enabled.
  unfold check_capabilities.
  rewrite (bind_return _ _ _ _ _ (emits_echo quiet echo_checking st)).
  rewrite Hclouds, (bind_return _ _ _ _ _ (lift_run _ _)).
  rewrite Hnames, (bind_return _ _ _ _ _ (lift_run _ _)).
  fold caps. fold (matrix clouds_to_check names caps).
  rewrite (bind_return _ _ _ _ _ (run_in_parallel_run _ _ _)).
  fold (run_aggregate env clouds_to_check names caps). fold agg.
  rewrite effects_effects.
  set (items := PyStr.sorted _ (check_results_dict agg)).
  assert (emits
    (for_each items
       (λ '(cloud_tuple, check_result_list),
          _print_checked_cloud env (if quiet then (λ _, mret ()) else click_echo)
            verbose cloud_tuple check_result_list
            (default [] (cloud2ctx2text agg !! cloud_tuple.1))))
    (concat ((λ item, quiet_out quiet
                (print_checked_cloud_lines env verbose item.1 item.2)) <$> items)))
    as Hprint.
  { apply emits_for_each. intros [cloud_tuple check_result_list].
    apply _print_checked_cloud_emits. }
  rewrite (bind_return _ _ _ _ _ (Hprint _)); clear Hprint.
  rewrite effects_effects, quiet_out_concat. fold (cloud_lines env verbose agg).
  rewrite (bind_return _ _ _ _ _ (reconcile_run _ _ _ _ _)).
  rewrite effects_effects. simpl.
  rewrite (left_id_L ∅ (∪)). fold all_enabled.
  fold (disallowed_names env names).
  assert (∀ l : list string,
            option_list match l with
                        | [] => None
                        | _ :: _ => Some (echo_disallowed_hint l)
                        end
            = match l with [] => [] | c :: l' => [echo_disallowed_hint (c :: l')] end)
    as Hhint by (by intros []).
  unfold closing_lines.
  destruct (decide (all_enabled = ∅)) as [Hempty|Hsome].
  - rewrite bool_decide_eq_true_2 by done.
    rewrite (bind_return _ _ _ _ _ (emits_echo quiet _ _)).
    rewrite (bind_return _ _ _ _ _ (emits_hint quiet _ _)).
    unfold raise.
    rewrite !effects_effects, !app_nil_r, !quiet_out_app, Hhint.
    match goal with
    | |- (_, effects _ _ _ (quiet_out _ ?a)) = (_, effects _ _ _ (quiet_out _ ?b)) =>
        replace a with b; [reflexivity|]
    end.
    simpl. by rewrite <- ?app_assoc.
  - rewrite bool_decide_eq_false_2 by done.
    rewrite (bind_return _ _ _ _ _ (emits_echo quiet _ _)).
    rewrite (bind_return _ _ _ _ _ (emits_hint quiet _ _)).
    match goal with
    | |- context [if quiet then mret () else ?echo ?msg] =>
        assert (emits (if quiet then mret () else echo msg) (quiet_out quiet [msg]))
          as Hinfra by (destruct quiet; [apply emits_ret | apply emits_click_echo]);
        rewrite (bind_return _ _ _ _ _ (Hinfra _)); clear Hinfra
    end.
    unfold mret, M_ret.
    rewrite !effects_effects, !app_nil_r, !quiet_out_app, Hhint.
    match goal with
    | |- (_, effects _ _ _ (quiet_out _ ?a)) = (_, effects _ _ _ (quiet_out _ ?b)) =>
        replace a with b; [reflexivity|]
    end.
    simpl. by rewrite <- ?app_assoc.
Qed.

(** ** Dictionaries keep their keys apart *)

Lemma setdefault_append_keys {K V} `{EqDecision K} (d : list (K * list V)) k v :
  (setdefault_append d k v).*1 = if decide (k ∈ d.*1) then d.*1 else d.*1 ++ [k].
Proof.
  induction d as [|[k1 vs1] d IH].
  - simpl. destruct (decide (k ∈ [])) as [H|_]; [by apply elem_of_nil in H|done].
  - cbn [setdefault_append]. rewrite fmap_cons. cbn [fst].
    destruct (decide (k1 = k)) as [->|Hne].
    + rewrite fmap_cons. cbn [fst].
      destruct (decide (k ∈ k :: d.*1)) as [_|Hnin]; [done|].
      exfalso. apply Hnin. by apply elem_of_cons; left.
    + rewrite fmap_cons, IH. cbn [fst].
      destruct (decide (k ∈ d.*1)) as [Hin|Hnin],
               (decide (k ∈ k1 :: d.*1)) as [Hin'|Hnin']; try done.
      * exfalso. apply Hnin'. by apply elem_of_cons; right.
      * apply elem_of_cons in Hin' as [->|?]; done.
Qed.

Lemma setdefault_append_wf {K V} `{EqDecision K} (d : list (K * list V)) k v :
  dict_wf d → dict_wf (setdefault_append d k v).
Proof.
  intros [Hnodup Hne]. split.
  - rewrite setdefault_append_keys. destruct (decide (k ∈ d.*1)); [done|].
    apply NoDup_app. split; [done|]. split; [|apply NoDup_singleton].
    intros x Hx ->%list_elem_of_singleton. done.
  - clear Hnodup. induction d as [|[k1 vs1] d IH]; simpl.
    + by repeat constructor.
    + apply Forall_cons in Hne as [Hhd Htl].
      destruct (decide (k1 = k)); constructor; simpl; auto.
      by destruct vs1.
Qed.

Lemma dict_wf_nil {K V} : dict_wf (@nil (K * list V)).
Proof. split; constructor. Qed.

Lemma NoDup_keys_inj {K V} (d : list (K * V)) k v v' :
  NoDup d.*1 → (k, v) ∈ d → (k, v') ∈ d → v = v'.
Proof.
  induction d as [|[k0 v0] d IH]; [by intros _ ?%elem_of_nil|].
  rewrite fmap_cons, NoDup_cons, !elem_of_cons. cbn [fst].
  intros [Hnotin Hnodup] [E|Hin] [E'|Hin'].
  - congruence.
  - exfalso. apply Hnotin. apply list_elem_of_fmap. exists (k, v').
    split; [|done]. simpl. congruence.
  - exfalso. apply Hnotin. apply list_elem_of_fmap. exists (k, v).
    split; [|done]. simpl. congruence.
  - by apply IH.
Qed.

Lemma dict_wf_listed {K V} (d : list (K * list V)) k vs v :
  dict_wf d → (k, vs) ∈ d → (listed d k v ↔ v ∈ vs).
Proof.
  intros [Hnodup _] Hin. split; [|intros ?; by exists vs].
  intros (vs' & Hin' & Hv). by rewrite (NoDup_keys_inj d k vs vs' Hnodup Hin Hin').
Qed.

Lemma aggregate_fold_wf items acc :
  dict_wf (enabled_clouds acc) → dict_wf (disabled_clouds acc) →
  dict_wf (check_results_dict acc) →
  dict_wf (enabled_clouds (fold_left aggregate_step items acc))
  ∧ dict_wf (disabled_clouds (fold_left aggregate_step items acc))
  ∧ dict_wf (check_results_dict (fold_left aggregate_step items acc)).
Proof.
  revert acc. induction items as [|[[cloud_tuple cap'] r] l IH]; intros acc He Hd Hr;
    simpl; [done|].
  apply IH; destruct r as [[[cap ok] reason]|]; simpl; try done;
    destruct ok; try done; by apply setdefault_append_wf.
Qed.

Lemma run_aggregate_wf env clouds_to_check names caps :
  dict_wf (enabled_clouds (run_aggregate env clouds_to_check names caps))
  ∧ dict_wf (disabled_clouds (run_aggregate env clouds_to_check names caps))
  ∧ dict_wf (check_results_dict (run_aggregate env clouds_to_check names caps)).
Proof. apply aggregate_fold_wf; apply dict_wf_nil. Qed.

Lemma listed_enabled_run env clouds_to_check names caps x c :
  listed (enabled_clouds (run_aggregate env clouds_to_check names caps)) x c
  ↔ x ∈ providers_with true env (matrix clouds_to_check names caps) c.
Proof.
  unfold run_aggregate, aggregate.
  rewrite listed_enabled_fold, elem_of_providers_with.
  split; [intros [H|?]; [by apply listed_nil in H|done]|by right].
Qed.

Lemma listed_disabled_run env clouds_to_check names caps x c :
  listed (disabled_clouds (run_aggregate env clouds_to_check names caps)) x c
  ↔ x ∈ providers_with false env (matrix clouds_to_check names caps) c.
Proof.
  unfold run_aggregate, aggregate.
  rewrite listed_disabled_fold, elem_of_providers_with.
  split; [intros [H|?]; [by apply listed_nil in H|done]|by right].
Qed.

(** ** What check_capabilities, check_capability and check return *)

(** X1. When a run whose names resolve returns, the dictionary it returns
    lists a capability under a cloud name exactly when the probe of an
    eligible cloud of that name passed for that capability (Cloudflare
    included, cached clouds not); its keys are distinct and no key has an
    empty list. *)
Theorem returned_dictionary_lists_passes env quiet verbose clouds capabilities st
    clouds_to_check names enabled :
  resolve_clouds_to_check env clouds = Return clouds_to_check →
  resolve_config_allowed_cloud_names env = Return names →
  (check_capabilities env quiet verbose clouds capabilities st).1 = Return enabled →
  let combinations :=
    matrix clouds_to_check names (default ALL_CAPABILITIES capabilities) in
  (∀ x c, (∃ caps, (x, caps) ∈ enabled ∧ c ∈ caps)
          ↔ x ∈ providers_with true env combinations c)
  ∧ NoDup enabled.*1
  ∧ Forall (λ item, item.2 ≠ []) enabled.
Proof.
  intros Hclouds Hnames Hret combinations.
  rewrite (check_capabilities_run_full env quiet verbose clouds capabilities st
             _ _ Hclouds Hnames) in Hret.
  simpl in Hret. destruct (decide _); [done|]. injection Hret as <-.
  split; [intros x c; apply listed_enabled_run|].
  apply run_aggregate_wf.
Qed.

Lemma returned_dictionary_lists_passes_witness :
  (∃ caps,
     ("Cloudflare", caps) ∈ [("GCP", [COMPUTE; STORAGE]); ("Cloudflare", [STORAGE])]
     ∧ STORAGE ∈ caps)
  ↔ "Cloudflare" ∈ providers_with true demo_env
                     (matrix demo_clouds_to_check demo_names ALL_CAPABILITIES) STORAGE.
Proof.
  exact (proj1 (returned_dictionary_lists_passes demo_env true false None None
                  fresh_state demo_clouds_to_check demo_names
                  [("GCP", [COMPUTE; STORAGE]); ("Cloudflare", [STORAGE])]
                  eq_refl eq_refl eq_refl) "Cloudflare" STORAGE).
Defined.

Lemma NoDup_fst_filter {K V} (P : K * V → Prop) `{∀ x, Decision (P x)}
    (d : list (K * V)) :
  NoDup d.*1 → NoDup (filter P d).*1.
Proof.
  induction d as [|[k v] d IH]; [done|].
  rewrite fmap_cons, NoDup_cons, filter_cons. cbn [fst]. intros [Hnotin Hnodup].
  destruct (decide (P (k, v))); [|by apply IH].
  rewrite fmap_cons. cbn [fst]. apply NoDup_cons. split; [|by apply IH].
  intros [[k' v'] [Hk [_ Hin]%list_elem_of_filter]]%list_elem_of_fmap.
  simpl in Hk. subst k'. apply Hnotin, list_elem_of_fmap. by exists (k, v').
Qed.

Lemma check_capability_run env capability quiet verbose clouds st :
  let run := check_capability env capability quiet verbose clouds st in
  let checked := check_capabilities env quiet verbose clouds (Some [capability]) st in
  run.2 = checked.2
  ∧ run.1 = match checked.1 with
            | Return enabled =>
                Return (fst <$> filter (λ item : string * list CloudCapability,
                                          capability ∈ item.2) enabled)
            | Raise e => Raise e
            end.
Proof.
  unfold check_capability, mbind, M_bind. simpl.
  by destruct (check_capabilities _ _ _ _ _ _) as [[enabled|e] st'].
Qed.

Lemma check_run env quiet verbose clouds st :
  let run := check env quiet verbose clouds st in
  let checked := check_capabilities env quiet verbose clouds (Some ALL_CAPABILITIES) st in
  run.2 = checked.2
  ∧ run.1 = match checked.1 with
            | Return enabled => Return (fst <$> enabled)
            | Raise e => Raise e
            end.
Proof.
  unfold check, mbind, M_bind. simpl.
  by destruct (check_capabilities _ _ _ _ _ _) as [[enabled|e] st'].
Qed.

(** X2. check_capability leaves the state check_capabilities leaves for the
    one capability and passes its exception on. When the names resolve and it
    returns, it returns, each once, the names of the eligible clouds whose
    probe for the capability passed in this run. *)
Theorem check_capability_returns_passed env capability quiet verbose clouds st
    clouds_to_check names :
  resolve_clouds_to_check env clouds = Return clouds_to_check →
  resolve_config_allowed_cloud_names env = Return names →
  let run := check_capability env capability quiet verbose clouds st in
  let checked := check_capabilities env quiet verbose clouds (Some [capability]) st in
  run.2 = checked.2
  ∧ (∀ e, checked.1 = Raise e ↔ run.1 = Raise e)
  ∧ (∀ clouds_with_capability,
       run.1 = Return clouds_with_capability →
       NoDup clouds_with_capability
       ∧ ∀ x, x ∈ clouds_with_capability
              ↔ x ∈ providers_with true env
                      (matrix clouds_to_check names [capability]) capability).
Proof.
  intros Hclouds Hnames run checked.
  destruct (check_capability_run env capability quiet verbose clouds st) as [Hst Hres].
  fold run checked in Hst, Hres. split; [done|]. split.
  - intros e. rewrite Hres. destruct checked.1; split; congruence.
  - intros l Hl. rewrite Hres in Hl.
    destruct checked.1 as [enabled|] eqn:Hchecked; [|done]. injection Hl as <-.
    assert (enabled = enabled_clouds (run_aggregate env clouds_to_check names [capability]))
      as ->.
    { subst checked.
      rewrite (check_capabilities_run_full env quiet verbose clouds (Some [capability])
                 st _ _ Hclouds Hnames) in Hchecked.
      simpl in Hchecked. destruct (decide _); congruence. }
    destruct (run_aggregate_wf env clouds_to_check names [capability]) as ([Hnodup _] & _).
    split; [by apply NoDup_fst_filter|].
    intros x. rewrite <- listed_enabled_run, list_elem_of_fmap. split.
    + intros [[x' caps] [-> [Hc Hin]%list_elem_of_filter]]. by exists caps.
    + intros (caps & Hin & Hc). exists (x, caps). split; [done|].
      by apply list_elem_of_filter.
Qed.

Lemma check_capability_returns_passed_witness :
  "Cloudflare" ∈ ["GCP"; "Cloudflare"]
  ↔ "Cloudflare" ∈ providers_with true demo_env
                     (matrix demo_clouds_to_check demo_names [STORAGE]) STORAGE.
Proof.
  exact (proj2 (proj2 (proj2
    (check_capability_returns_passed demo_env STORAGE true false None fresh_state
       demo_clouds_to_check demo_names eq_refl eq_refl))
    ["GCP"; "Cloudflare"] eq_refl) "Cloudflare").
Defined.

(** X3. When the names resolve and check returns, it returns, each once, the
    names of the eligible clouds whose probe passed for at least one
    capability. *)
Theorem check_returns_enabled_names env quiet verbose clouds st
    clouds_to_check names enabled_names :
  resolve_clouds_to_check env clouds = Return clouds_to_check →
  resolve_config_allowed_cloud_names env = Return names →
  (check env quiet verbose clouds st).1 = Return enabled_names →
  NoDup enabled_names
  ∧ ∀ x, x ∈ enabled_names
         ↔ ∃ c, x ∈ providers_with true env
                      (matrix clouds_to_check names ALL_CAPABILITIES) c.
Proof.
  intros Hclouds Hnames Hret.
  destruct (check_run env quiet verbose clouds st) as [_ Hres].
  rewrite Hres in Hret.
  rewrite (check_capabilities_run_full env quiet verbose clouds (Some ALL_CAPABILITIES)
             st _ _ Hclouds Hnames) in Hret.
  cbn [fst default] in Hret. destruct (decide _); [done|]. injection Hret as <-.
  destruct (run_aggregate_wf env clouds_to_check names ALL_CAPABILITIES)
    as ([Hnodup Hne] & _).
  split; [done|]. intros x.
  setoid_rewrite <- listed_enabled_run. rewrite list_elem_of_fmap. split.
  - intros [[x' caps] [-> Hin]]. simpl.
    rewrite Forall_forall in Hne. specialize (Hne _ Hin). simpl in Hne.
    destruct caps as [|c caps]; [done|]. exists c, (c :: caps).
    split; [done|]. by apply elem_of_cons; left.
  - intros (c & caps & Hin & _). by exists (x, caps).
Qed.

Lemma check_returns_enabled_names_witness :
  "GCP" ∈ ["GCP"; "Cloudflare"]
  ↔ ∃ c, "GCP" ∈ providers_with true demo_env
                   (matrix demo_clouds_to_check demo_names ALL_CAPABILITIES) c.
Proof.
  exact (proj2 (check_returns_enabled_names demo_env true false None fresh_state
                  demo_clouds_to_check demo_names ["GCP"; "Cloudflare"]
                  eq_refl eq_refl eq_refl) "GCP").
Defined.

Lemma providers_with_matrix_mono env clouds_to_check names capability x :
  x ∈ providers_with true env (matrix clouds_to_check names [capability]) capability →
  x ∈ providers_with true env (matrix clouds_to_check names ALL_CAPABILITIES) capability.
Proof.
  unfold providers_with. rewrite !elem_of_list_to_set, !list_elem_of_fmap.
  intros [p [-> [Hp Hin]%list_elem_of_filter]]. exists p. split; [done|].
  apply list_elem_of_filter. split; [done|].
  revert Hin. unfold matrix. rewrite !list_elem_of_In. destruct p as [t c].
  rewrite !in_prod_iff. intros [Ht _]. split; [done|].
  destruct c; simpl; auto.
Qed.

(** X4. Every cloud that check_capability returns for a capability is among
    the clouds check returns for the same requested clouds, whatever the
    databases the two calls start from. *)
Theorem check_capability_within_check env capability quiet verbose quiet' verbose'
    clouds st st' clouds_to_check names clouds_with_capability enabled_names :
  resolve_clouds_to_check env clouds = Return clouds_to_check →
  resolve_config_allowed_cloud_names env = Return names →
  (check_capability env capability quiet verbose clouds st).1
  = Return clouds_with_capability →
  (check env quiet' verbose' clouds st').1 = Return enabled_names →
  clouds_with_capability ⊆ enabled_names.
Proof.
  intros Hclouds Hnames Hcap Hcheck x Hx.
  destruct (check_capability_run env capability quiet verbose clouds st) as [_ Hres].
  rewrite Hres in Hcap.
  rewrite (check_capabilities_run_full env quiet verbose clouds (Some [capability])
             st _ _ Hclouds Hnames) in Hcap.
  cbn [fst default] in Hcap. destruct (decide _); [done|]. injection Hcap as <-.
  destruct (check_run env quiet' verbose' clouds st') as [_ Hres'].
  rewrite Hres' in Hcheck.
  rewrite (check_capabilities_run_full env quiet' verbose' clouds (Some ALL_CAPABILITIES)
             st' _ _ Hclouds Hnames) in Hcheck.
  cbn [fst default] in Hcheck. destruct (decide _); [done|]. injection Hcheck as <-.
  apply list_elem_of_fmap in Hx as [[x' caps] [-> [Hc Hin]%list_elem_of_filter]].
  simpl in *.
  assert (listed (enabled_clouds (run_aggregate env clouds_to_check names
                                    ALL_CAPABILITIES)) x' capability)
    as (caps' & Hin' & _).
  { apply listed_enabled_run, providers_with_matrix_mono, listed_enabled_run.
    by exists caps. }
  apply list_elem_of_fmap. by exists (x', caps').
Qed.

Lemma check_capability_within_check_witness :
  (check_capability demo_env COMPUTE true false None fresh_state).1 = Return ["GCP"]
  ∧ (check demo_env true false None gcp_state).1 = Return ["GCP"; "Cloudflare"]
  ∧ ["GCP"] ⊆ ["GCP"; "Cloudflare"].
Proof.
  split; [reflexivity|]. split; [reflexivity|].
  exact (check_capability_within_check demo_env COMPUTE true false true false None
           fresh_state gcp_state demo_clouds_to_check demo_names
           ["GCP"] ["GCP"; "Cloudflare"]
           eq_refl eq_refl eq_refl eq_refl).
Defined.

(** ** What the flags change, what is probed, what an exit leaves *)


(** X6. In a run whose names resolve, every probe made is for a requested
    capability and for a cloud to check whose name is in the allow-list; the
    number of probes is the number of such clouds times the number of
    requested capabilities. *)
Theorem only_allowed_clouds_are_probed env quiet verbose clouds capabilities st
    clouds_to_check names :
  resolve_clouds_to_check env clouds = Return clouds_to_check →
  resolve_config_allowed_cloud_names env = Return names →
  let caps := default ALL_CAPABILITIES capabilities in
  let run := check_capabilities env quiet verbose clouds capabilities st in
  let probes := drop (length (probed st)) (probed run.2) in
  Forall (λ p : CloudObj * CloudCapability,
            p.2 ∈ caps
            ∧ ∃ cloud_tuple : CloudTuple,
                cloud_tuple ∈ clouds_to_check ∧ cloud_tuple.1 ∈ names
                ∧ cloud_tuple.2 = p.1) probes
  ∧ length probes
    = length (filter (λ c : CloudTuple, c.1 ∈ names) clouds_to_check) * length caps.
Proof.
  intros Hclouds Hnames caps run probes. subst probes run.
  rewrite (check_capabilities_run_full env quiet verbose clouds capabilities st
             _ _ Hclouds Hnames).
  cbn [snd effects probed]. rewrite drop_app_length. fold caps. split.
  - apply Forall_fmap, Forall_forall. intros [t c]. unfold matrix.
    rewrite list_elem_of_In, in_prod_iff, <- !list_elem_of_In, list_elem_of_filter.
    intros [[Hallowed Ht] Hc]. simpl. split; [done|]. by exists t.
  - rewrite length_fmap. unfold matrix. apply length_prod.
Qed.

Lemma only_allowed_clouds_are_probed_witness :
  length (drop (length (probed gcp_state))
            (probed (check_capabilities demo_env true false (Some ["aws"])
                       None gcp_state).2))
  = length (filter (λ c : CloudTuple, c.1 ∈ demo_names) [("AWS", cloud_object "AWS")])
    * length ALL_CAPABILITIES.
Proof.
  exact (proj2 (only_allowed_clouds_are_probed demo_env true false (Some ["aws"]) None
                  gcp_state [("AWS", cloud_object "AWS")] demo_names
                  eq_refl eq_refl)).
Defined.

Lemma resolve_names_raises env config cloud_name :
  cloud_name ∈ config → unresolvable env cloud_name →
  ∃ bad, mapM (λ c, fst <$> get_cloud_tuple env c) config = Raise (CloudNotFound bad)
         ∧ bad ∈ config ∧ unresolvable env bad.
Proof.
  intros Hin Hbad. induction config as [|c l IH]; [by apply elem_of_nil in Hin|].
  simpl. destruct (get_cloud_tuple env c) as [t|e] eqn:Hc; simpl.
  - apply elem_of_cons in Hin as [->|Hin].
    + by rewrite get_cloud_tuple_raise in Hc.
    + destruct (IH Hin) as (bad & -> & Hbadin & Hunres).
      exists bad. split; [done|]. split; [by apply elem_of_cons; right|done].
  - apply get_cloud_tuple_raise_inv in Hc as [-> Hunres].
    exists c. split; [done|]. split; [by apply elem_of_cons; left|done].
Qed.

(** X7. The names of allowed_clouds in the configuration are validated as
    the requested names are: when the requested names resolve and a name of
    the allow-list (of the default list when none is configured) is not a
    Cloudflare name and is unknown to the registry, the run raises the
    not-found error for such a name, with no probe made and nothing
    written. *)
Theorem unresolvable_allowed_cloud_fails_before_probing env quiet verbose clouds
    capabilities st clouds_to_check cloud_name :
  resolve_clouds_to_check env clouds = Return clouds_to_check →
  cloud_name ∈ default (get_all_clouds env) (config_allowed_clouds env) →
  unresolvable env cloud_name →
  let run := check_capabilities env quiet verbose clouds capabilities st in
  (∃ bad, run.1 = Raise (CloudNotFound bad)
          ∧ bad ∈ default (get_all_clouds env) (config_allowed_clouds env)
          ∧ unresolvable env bad)
  ∧ probed run.2 = probed st
  ∧ db_writes run.2 = db_writes st
  ∧ enabled_clouds_db run.2 = enabled_clouds_db st.
Proof.
  intros Hclouds Hin Hbad run.
  destruct (resolve_names_raises env _ _ Hin Hbad) as (bad & Hraise & Hbadin & Hunres).
  subst run.
  rewrite (check_capabilities_config_not_found env quiet verbose clouds capabilities
             st clouds_to_check (CloudNotFound bad)).
  - simpl. rewrite !app_nil_r. eauto 10.
  - done.
  - unfold resolve_config_allowed_cloud_names. by rewrite Hraise.
Qed.

Lemma unresolvable_allowed_cloud_fails_before_probing_witness :
  let run := check_capabilities typo_env true false None None gcp_state in
  probed run.2 = probed gcp_state ∧ db_writes run.2 = db_writes gcp_state.
Proof.
  pose proof (unresolvable_allowed_cloud_fails_before_probing typo_env true false
                None None gcp_state demo_clouds_to_check "azure" eq_refl
                (list_elem_of_further _ _ _ (list_elem_of_here _ _))
                (conj eq_refl eq_refl)) as (_ & Hp & Hw & _).
  exact (conj Hp Hw).
Defined.

(** X8. When a run whose names resolve ends in SystemExit, the cache of
    every requested capability has been written and is empty. *)
Theorem system_exit_leaves_empty_caches env quiet verbose clouds capabilities st
    clouds_to_check names c :
  resolve_clouds_to_check env clouds = Return clouds_to_check →
  resolve_config_allowed_cloud_names env = Return names →
  let run := check_capabilities env quiet verbose clouds capabilities st in
  run.1 = Raise SystemExit →
  c ∈ default ALL_CAPABILITIES capabilities →
  enabled_clouds_db run.2 c = ∅
  ∧ (c, ∅) ∈ drop (length (db_writes st)) (db_writes run.2).
Proof.
  intros Hclouds Hnames run Hexit Hc. subst run.
  rewrite (check_capabilities_run_full env quiet verbose clouds capabilities st
             _ _ Hclouds Hnames) in Hexit |- *.
  cbn [fst snd effects enabled_clouds_db db_writes] in *.
  destruct (decide _) as [Hempty|]; [|done].
  apply empty_union_list_L in Hempty.
  rewrite Forall_fmap, Forall_forall in Hempty. specialize (Hempty c Hc).
  simpl in Hempty. split.
  - by rewrite apply_writes_lookup, decide_True.
  - rewrite drop_app_length. apply list_elem_of_fmap. exists c. by rewrite Hempty.
Qed.

Lemma system_exit_leaves_empty_caches_witness :
  enabled_clouds_db
    (check_capabilities demo_env true false (Some ["aws"]) None fresh_state).2 STORAGE
  = ∅.
Proof.
  exact (proj1 (system_exit_leaves_empty_caches demo_env true false (Some ["aws"]) None
                  fresh_state [("AWS", cloud_object "AWS")] demo_names STORAGE
                  eq_refl eq_refl eq_refl
                  (list_elem_of_further _ _ _ (list_elem_of_here _ _)))).
Defined.

(** ** More on get_cached_enabled_clouds_or_refresh *)

Lemma check_capabilities_outcomes env quiet verbose clouds capabilities st :
  let run := check_capabilities env quiet verbose clouds capabilities st in
  (run.1 = Raise SystemExit ∨ (∃ enabled, run.1 = Return enabled)
   ∨ ∃ cloud_name, run.1 = Raise (CloudNotFound cloud_name))
  ∧ (quiet = true → echoed run.2 = echoed st).
Proof.
  intros run. subst run.
  destruct (resolve_clouds_to_check env clouds) as [clouds_to_check|e] eqn:Hclouds.
  2:{ rewrite (check_capabilities_clouds_not_found _ _ _ _ _ _ e) by done.
      unfold resolve_clouds_to_check in Hclouds. simpl. split.
      - right; right.
        assert (∀ l r, mapM (get_cloud_tuple env) l = Raise r → ∃ n, r = CloudNotFound n)
          as Hmap.
        { induction l as [|c l IH]; intros r; simpl; [done|].
          destruct (get_cloud_tuple env c) eqn:Hc; simpl.
          - destruct (mapM (get_cloud_tuple env) l) eqn:Hl; simpl; [done|].
            intros [= <-]. by apply IH.
          - intros [= <-]. apply get_cloud_tuple_raise_inv in Hc as [-> _]. eauto. }
        destruct (Hmap _ _ Hclouds) as [n ->]. eauto.
      - intros ->. simpl. apply app_nil_r. }
  destruct (resolve_config_allowed_cloud_names env) as [names|e] eqn:Hnames.
  2:{ rewrite (check_capabilities_config_not_found _ _ _ _ _ _ clouds_to_check e)
        by done.
      unfold resolve_config_allowed_cloud_names in Hnames. simpl. split.
      - right; right.
        assert (∀ l r, mapM (λ c, fst <$> get_cloud_tuple env c) l = Raise r
                       → ∃ n, r = CloudNotFound n) as Hmap.
        { induction l as [|c l IH]; intros r; simpl; [done|].
          destruct (get_cloud_tuple env c) eqn:Hc; simpl.
          - destruct (mapM _ l) eqn:Hl; simpl; [done|].
            intros [= <-]. by apply IH.
          - intros [= <-]. apply get_cloud_tuple_raise_inv in Hc as [-> _]. eauto. }
        destruct (mapM _ _) eqn:Hm; [done|]. simpl in Hnames. injection Hnames as <-.
        destruct (Hmap _ _ Hm) as [n ->]. eauto.
      - intros ->. simpl. apply app_nil_r. }
  rewrite (check_capabilities_run_full _ _ _ _ _ _ clouds_to_check names) by done.
  simpl. split.
  - destruct (decide _); eauto.
  - intros ->. simpl. apply app_nil_r.
Qed.

(** X9. get_cached_enabled_clouds_or_refresh never raises SystemExit and
    never echoes, whatever the registry and the configuration hold; without
    the flag the only error it can raise is the not-found error of the
    check. *)
Theorem refresh_absorbs_system_exit env capability (raise_if_no_cloud_access : bool) st :
  let run :=
    get_cached_enabled_clouds_or_refresh env capability raise_if_no_cloud_access st in
  run.1 ≠ Raise SystemExit
  ∧ echoed run.2 = echoed st
  ∧ (raise_if_no_cloud_access = false →
     ∀ e, run.1 = Raise e → ∃ cloud_name, e = CloudNotFound cloud_name).
Proof.
  intros run.
  assert (∃ r st1,
            run = (r, st1) ∧ r ≠ Raise SystemExit ∧ echoed st1 = echoed st
            ∧ (raise_if_no_cloud_access = false →
               ∀ e, r = Raise e → ∃ cloud_name, e = CloudNotFound cloud_name))
    as (r & st1 & -> & Hr & Hecho & Herr); [|done].
  subst run. unfold get_cached_enabled_clouds_or_refresh.
  unfold mbind at 1, M_bind at 1, get_cached_enabled_clouds at 1.
  destruct (decide (enabled_clouds_db st capability = ∅)) as [Hempty|Hne].
  - unfold check_capability, try_except_SystemExit.
    unfold mbind, M_bind, mret, M_ret, get_cached_enabled_clouds, raise.
    destruct (check_capabilities_outcomes env true false None (Some [COMPUTE]) st)
      as [Hout Hecho].
    specialize (Hecho eq_refl).
    destruct (check_capabilities env true false None (Some [COMPUTE]) st) as [r st1].
    simpl in Hout, Hecho.
    destruct Hout as [->|[[enabled ->]|[n ->]]].
    + destruct raise_if_no_cloud_access; simpl.
      * destruct (bool_decide _); eexists _, _; (split; [reflexivity|]);
          (split; [done|]); (split; [done|]); done.
      * eexists _, _. split; [reflexivity|]. split; [done|]. split; [done|].
        by intros _ e [=].
    + destruct raise_if_no_cloud_access; simpl.
      * destruct (bool_decide _); eexists _, _; (split; [reflexivity|]);
          (split; [done|]); (split; [done|]); done.
      * eexists _, _. split; [reflexivity|]. split; [done|]. split; [done|].
        by intros _ e [=].
    + eexists _, _. split; [reflexivity|]. split; [done|]. split; [done|].
      intros _ e [= <-]. eauto.
  - unfold mbind, M_bind, mret, M_ret.
    rewrite bool_decide_eq_false_2 by done. rewrite andb_false_r.
    eexists _, _. split; [reflexivity|]. split; [done|]. split; [done|].
    by intros _ e [=].
Qed.

Lemma refresh_run env capability (raise_if_no_cloud_access : bool) st
    clouds_to_check names :
  resolve_clouds_to_check env None = Return clouds_to_check →
  resolve_config_allowed_cloud_names env = Return names →
  enabled_clouds_db st capability = ∅ →
  let refresh := check_capabilities env true false None (Some [COMPUTE]) st in
  get_cached_enabled_clouds_or_refresh env capability raise_if_no_cloud_access st
  = (if raise_if_no_cloud_access
        && bool_decide (enabled_clouds_db refresh.2 capability = ∅)
     then Raise NoCloudAccessError
     else Return (enabled_clouds_db refresh.2 capability),
     refresh.2).
Proof.
  intros Hclouds Hnames Hempty refresh.
  assert (refresh.1 = Raise SystemExit ∨ ∃ enabled, refresh.1 = Return enabled)
    as Habsorbed.
  { subst refresh.
    rewrite (check_capabilities_run_full env true false None (Some [COMPUTE]) st
               _ _ Hclouds Hnames).
    simpl. destruct (decide _); eauto. }
  unfold get_cached_enabled_clouds_or_refresh.
  unfold mbind at 1, M_bind at 1, get_cached_enabled_clouds at 1.
  rewrite decide_True by done.
  unfold check_capability, try_except_SystemExit.
  unfold mbind, M_bind, mret, M_ret, get_cached_enabled_clouds, raise.
  fold refresh. destruct refresh as [r st1]. simpl in *.
  destruct Habsorbed as [->|[enabled ->]];
    destruct (raise_if_no_cloud_access && bool_decide _); done.
Qed.

(** X10. For a capability other than COMPUTE with an empty cache the refresh
    cannot help: the check that runs probes and writes COMPUTE only, the
    cache of the requested capability is still empty afterwards, and the
    function raises NoCloudAccessError when the flag is set and returns the
    empty set otherwise. *)
Theorem refresh_leaves_other_capabilities_empty env capability
    (raise_if_no_cloud_access : bool) st clouds_to_check names :
  resolve_clouds_to_check env None = Return clouds_to_check →
  resolve_config_allowed_cloud_names env = Return names →
  capability ≠ COMPUTE →
  enabled_clouds_db st capability = ∅ →
  let run :=
    get_cached_enabled_clouds_or_refresh env capability raise_if_no_cloud_access st in
  run.1 = (if raise_if_no_cloud_access then Raise NoCloudAccessError else Return ∅)
  ∧ enabled_clouds_db run.2 capability = ∅
  ∧ probed run.2 = probed st ++ (probe_of <$> matrix clouds_to_check names [COMPUTE]).
Proof.
  intros Hclouds Hnames Hcap Hempty run. subst run.
  rewrite (refresh_run env capability raise_if_no_cloud_access st _ _
             Hclouds Hnames Hempty).
  destruct (check_capabilities_final_state env true false None (Some [COMPUTE]) st
              _ _ Hclouds Hnames) as (Hdb & _ & Hps).
  cbn [fst snd]. cbn [default] in Hdb, Hps.
  assert (enabled_clouds_db
            (check_capabilities env true false None (Some [COMPUTE]) st).2 capability
          = ∅) as Hstill.
  { rewrite Hdb, decide_False; [done|].
    intros ?%list_elem_of_singleton. done. }
  rewrite Hstill, bool_decide_eq_true_2 by done. rewrite andb_true_r.
  done.
Qed.

Lemma refresh_leaves_other_capabilities_empty_witness :
  (get_cached_enabled_clouds_or_refresh demo_env STORAGE false fresh_state).1
  = Return ∅.
Proof.
  exact (proj1 (refresh_leaves_other_capabilities_empty demo_env STORAGE false
                  fresh_state demo_clouds_to_check demo_names eq_refl eq_refl
                  ltac:(discriminate) eq_refl)).
Defined.

(** X11. For COMPUTE with an empty cache, the check's SystemExit is what
    later becomes NoCloudAccessError: the function raises it exactly when the
    flag is set and the check raised SystemExit; when the function returns,
    it returns the set the check wrote for COMPUTE, which is empty only if the
    check raised SystemExit. *)
Theorem refresh_for_compute env (raise_if_no_cloud_access : bool) st
    clouds_to_check names :
  resolve_clouds_to_check env None = Return clouds_to_check →
  resolve_config_allowed_cloud_names env = Return names →
  enabled_clouds_db st COMPUTE = ∅ →
  let run :=
    get_cached_enabled_clouds_or_refresh env COMPUTE raise_if_no_cloud_access st in
  let refresh := check_capabilities env true false None (Some [COMPUTE]) st in
  (run.1 = Raise NoCloudAccessError
   ↔ raise_if_no_cloud_access = true ∧ refresh.1 = Raise SystemExit)
  ∧ (∀ cached, run.1 = Return cached →
       (COMPUTE, cached) ∈ drop (length (db_writes st)) (db_writes run.2)
       ∧ (cached = ∅ ↔ refresh.1 = Raise SystemExit)).
Proof.
  intros Hclouds Hnames Hempty run refresh. subst run.
  rewrite (refresh_run env COMPUTE raise_if_no_cloud_access st _ _
             Hclouds Hnames Hempty).
  fold refresh. cbn [fst snd].
  set (S := new_enabled (run_aggregate env clouds_to_check names [COMPUTE])
              names (enabled_clouds_db st) COMPUTE).
  destruct (check_capabilities_final_state env true false None (Some [COMPUTE]) st
              _ _ Hclouds Hnames) as (Hdb & Hws & _).
  fold refresh in Hdb, Hws. cbn [default] in Hdb, Hws.
  specialize (Hdb COMPUTE). rewrite decide_True in Hdb by apply list_elem_of_here.
  fold S in Hdb.
  assert (drop (length (db_writes st)) (db_writes refresh.2) = [(COMPUTE, S)]) as Hnew
    by (by rewrite Hws, drop_app_length).
  assert (refresh.1 = Raise SystemExit ↔ S = ∅) as Hexit.
  { subst refresh.
    destruct (check_capabilities_run env true false None (Some [COMPUTE]) st
                _ _ Hclouds Hnames) as [tail ->].
    simpl. fold S. destruct (decide (S ∪ ∅ = ∅)) as [H|H];
      rewrite (right_id_L ∅ (∪)) in H; split; done. }
  rewrite Hdb, Hnew, Hexit.
  destruct (decide (S = ∅)) as [HS|HS].
  - rewrite bool_decide_eq_true_2 by done. rewrite andb_true_r. split.
    + destruct raise_if_no_cloud_access; naive_solver.
    + intros cached. destruct raise_if_no_cloud_access; [done|].
      intros [= <-]. split; [by apply list_elem_of_singleton|done].
  - rewrite bool_decide_eq_false_2 by done. rewrite andb_false_r. split.
    + naive_solver.
    + intros cached [= <-]. split; [by apply list_elem_of_singleton|done].
Qed.

Lemma refresh_for_compute_witness :
  (COMPUTE, {["GCP"]})
    ∈ drop (length (db_writes fresh_state))
        (db_writes (get_cached_enabled_clouds_or_refresh demo_env COMPUTE true
                      fresh_state).2).
Proof.
  refine (proj1 (proj2 (refresh_for_compute demo_env true fresh_state
                          demo_clouds_to_check demo_names eq_refl eq_refl eq_refl)
                   {["GCP"]} _)).
  vm_compute. reflexivity.
Defined.

(** ** get_cloud_credential_file_mounts *)

Lemma add_existing_mounts_lookup menv file_mounts items remote local :
  add_existing_mounts menv file_mounts items !! remote = Some local →
  file_mounts !! remote = Some local
  ∨ ((remote, local) ∈ items ∧ local_path_exists menv local = true).
Proof.
  unfold add_existing_mounts. revert file_mounts.
  induction items as [|[r l] items IH]; intros file_mounts; simpl; [by left|].
  intros [Hfm|[Hin Hex]]%IH.
  - destruct (local_path_exists menv l) eqn:Hl; [|by left].
    apply lookup_insert_Some in Hfm as [[<- <-]|[_ Hfm]]; [|by left].
    right. split; [by apply elem_of_cons; left|done].
  - right. split; [by apply elem_of_cons; right|done].
Qed.

Lemma add_existing_mounts_mono menv file_mounts items remote :
  is_Some (file_mounts !! remote) →
  is_Some (add_existing_mounts menv file_mounts items !! remote).
Proof.
  unfold add_existing_mounts. revert file_mounts.
  induction items as [|[r l] items IH]; intros file_mounts Hsome; simpl; [done|].
  apply IH. destruct (local_path_exists menv l); [|done].
  rewrite lookup_insert_is_Some. destruct (decide (r = remote)); auto.
Qed.

Lemma add_existing_mounts_dom menv file_mounts items remote local :
  (remote, local) ∈ items → local_path_exists menv local = true →
  is_Some (add_existing_mounts menv file_mounts items !! remote).
Proof.
  revert file_mounts.
  induction items as [|[r l] items IH]; intros file_mounts Hin Hex;
    [by apply elem_of_nil in Hin|].
  apply elem_of_cons in Hin as [[= <- <-]|Hin].
  - unfold add_existing_mounts. simpl. rewrite Hex.
    apply (add_existing_mounts_mono menv). rewrite lookup_insert_is_Some. auto.
  - unfold add_existing_mounts. simpl. by apply IH.
Qed.

Lemma dict_update_lookup d items k v :
  dict_update d items !! k = Some v → d !! k = Some v ∨ (k, v) ∈ items.
Proof.
  unfold dict_update. revert d.
  induction items as [|[k0 v0] items IH]; intros d; simpl; [by left|].
  intros [Hd|Hin]%IH.
  - apply lookup_insert_Some in Hd as [[<- <-]|[_ Hd]]; [|by left].
    right. by apply elem_of_cons; left.
  - right. by apply elem_of_cons; right.
Qed.

Lemma dict_update_other d items k :
  k ∉ items.*1 → dict_update d items !! k = d !! k.
Proof.
  unfold dict_update. revert d.
  induction items as [|[k0 v0] items IH]; intros d; simpl; [done|].
  rewrite not_elem_of_cons. intros [Hne Hnotin].
  rewrite IH by done. by apply lookup_insert_ne.
Qed.

Lemma dict_update_last d items k v :
  NoDup items.*1 → (k, v) ∈ items → dict_update d items !! k = Some v.
Proof.
  revert d. induction items as [|[k0 v0] items IH]; intros d;
    [by intros _ ?%elem_of_nil|].
  rewrite fmap_cons, NoDup_cons, elem_of_cons. cbn [fst].
  intros [Hnotin Hnodup] [[= -> ->]|Hin].
  - change (dict_update (<[k0 := v0]> d) items !! k0 = Some v0).
    rewrite dict_update_other by done. apply lookup_insert_eq.
  - change (dict_update (<[k0 := v0]> d) items !! k = Some v). by apply IH.
Qed.

(** Whether the loop of lines 279-286 skips the cloud. *)
Lemma cloud_mounts_lookup menv (skip : string → bool) clouds file_mounts remote local :
  foldl (λ file_mounts cloud,
           if skip cloud then file_mounts
           else add_existing_mounts menv file_mounts
                  (get_credential_file_mounts menv cloud))
        file_mounts clouds !! remote = Some local →
  file_mounts !! remote = Some local
  ∨ ∃ cloud, cloud ∈ clouds ∧ skip cloud = false
             ∧ (remote, local) ∈ get_credential_file_mounts menv cloud
             ∧ local_path_exists menv local = true.
Proof.
  revert file_mounts. induction clouds as [|c clouds IH]; intros file_mounts; simpl;
    [by left|].
  intros [Hfm|(cloud & Hin & Hskip & Hm & Hex)]%IH.
  - destruct (skip c) eqn:Hc; [by left|].
    apply add_existing_mounts_lookup in Hfm as [?|[Hm Hex]]; [by left|].
    right. exists c. split; [by apply elem_of_cons; left|done].
  - right. exists cloud. split; [by apply elem_of_cons; right|done].
Qed.

Lemma cloud_mounts_mono menv (skip : string → bool) clouds file_mounts remote :
  is_Some (file_mounts !! remote) →
  is_Some (foldl (λ file_mounts cloud,
                    if skip cloud then file_mounts
                    else add_existing_mounts menv file_mounts
                           (get_credential_file_mounts menv cloud))
                 file_mounts clouds !! remote).
Proof.
  revert file_mounts. induction clouds as [|c clouds IH]; intros file_mounts Hsome;
    simpl; [done|].
  apply IH. destruct (skip c); [done|]. by apply add_existing_mounts_mono.
Qed.

Lemma cloud_mounts_dom menv (skip : string → bool) clouds file_mounts cloud remote local :
  cloud ∈ clouds → skip cloud = false →
  (remote, local) ∈ get_credential_file_mounts menv cloud →
  local_path_exists menv local = true →
  is_Some (foldl (λ file_mounts cloud,
                    if skip cloud then file_mounts
                    else add_existing_mounts menv file_mounts
                           (get_credential_file_mounts menv cloud))
                 file_mounts clouds !! remote).
Proof.
  revert file_mounts. induction clouds as [|c clouds IH]; intros file_mounts Hin Hskip Hm Hex;
    [by apply elem_of_nil in Hin|].
  simpl. apply elem_of_cons in Hin as [<-|Hin].
  - rewrite Hskip. apply cloud_mounts_mono. by eapply add_existing_mounts_dom.
  - by apply IH.
Qed.

Lemma dict_update_mono d items k :
  is_Some (d !! k) → is_Some (dict_update d items !! k).
Proof.
  unfold dict_update. revert d.
  induction items as [|[k0 v0] items IH]; intros d Hsome; simpl; [done|].
  apply IH. rewrite lookup_insert_is_Some. destruct (decide (k0 = k)); auto.
Qed.

(** X12. Every entry of the returned file mounts is an entry of R2's mounts,
    with R2 enabled, or an entry of a registry cloud that is not excluded
    whose local path exists: an excluded cloud and a missing file contribute
    nothing. *)
Theorem file_mounts_come_from_credentials env menv excluded_clouds remote local :
  get_cloud_credential_file_mounts env menv excluded_clouds !! remote = Some local →
  (r2_is_enabled menv = true ∧ (remote, local) ∈ r2_credential_mounts menv)
  ∨ ∃ cloud,
      cloud ∈ registry_values env
      ∧ (∀ excluded, excluded_clouds = Some excluded →
                     cloud_in_iterable menv cloud excluded = false)
      ∧ (remote, local) ∈ get_credential_file_mounts menv cloud
      ∧ local_path_exists menv local = true.
Proof.
  unfold get_cloud_credential_file_mounts. intros Hlookup.
  assert (∀ fm,
            foldl (λ file_mounts cloud,
                     if match excluded_clouds with
                        | Some excluded => cloud_in_iterable menv cloud excluded
                        | None => false
                        end
                     then file_mounts
                     else add_existing_mounts menv file_mounts
                            (get_credential_file_mounts menv cloud))
                  ∅ (registry_values env) !! remote = Some fm →
            ∃ cloud,
              cloud ∈ registry_values env
              ∧ (∀ excluded, excluded_clouds = Some excluded →
                             cloud_in_iterable menv cloud excluded = false)
              ∧ (remote, fm) ∈ get_credential_file_mounts menv cloud
              ∧ local_path_exists menv fm = true) as Hclouds.
  { intros fm Hfm.
    apply (cloud_mounts_lookup menv
             (λ cloud, match excluded_clouds with
                       | Some excluded => cloud_in_iterable menv cloud excluded
                       | None => false
                       end)) in Hfm
      as [Hfm|(cloud & Hin & Hskip & Hm & Hex)]; [by rewrite lookup_empty in Hfm|].
    exists cloud. split; [done|]. split; [|done]. by intros excluded ->. }
  destruct (r2_is_enabled menv); [|right; by apply Hclouds].
  apply dict_update_lookup in Hlookup as [Hfm|Hr2]; [right; by apply Hclouds|by left].
Qed.

Lemma file_mounts_come_from_credentials_witness :
  (r2_is_enabled demo_mounts_env = true
   ∧ ("~/.config/gcloud", "~/.cloudflare/gcloud") ∈ r2_credential_mounts demo_mounts_env)
  ∨ ∃ cloud,
      cloud ∈ registry_values demo_env
      ∧ (∀ excluded, Some ["AWS"] = Some excluded →
                     cloud_in_iterable demo_mounts_env cloud excluded = false)
      ∧ ("~/.config/gcloud", "~/.cloudflare/gcloud")
          ∈ get_credential_file_mounts demo_mounts_env cloud
      ∧ local_path_exists demo_mounts_env "~/.cloudflare/gcloud" = true.
Proof.
  apply (file_mounts_come_from_credentials demo_env demo_mounts_env (Some ["AWS"])).
  vm_compute. reflexivity.
Defined.

(** X13. A remote path that a registry cloud which is not excluded maps to
    an existing local file is a key of the returned file mounts. *)
Theorem existing_credentials_are_mounted env menv excluded_clouds cloud remote local :
  cloud ∈ registry_values env →
  (∀ excluded, excluded_clouds = Some excluded →
               cloud_in_iterable menv cloud excluded = false) →
  (remote, local) ∈ get_credential_file_mounts menv cloud →
  local_path_exists menv local = true →
  is_Some (get_cloud_credential_file_mounts env menv excluded_clouds !! remote).
Proof.
  intros Hin Hexcl Hm Hex. unfold get_cloud_credential_file_mounts.
  assert (is_Some
            (foldl (λ file_mounts cloud,
                      if match excluded_clouds with
                         | Some excluded => cloud_in_iterable menv cloud excluded
                         | None => false
                         end
                      then file_mounts
                      else add_existing_mounts menv file_mounts
                             (get_credential_file_mounts menv cloud))
                   ∅ (registry_values env) !! remote)) as Hclouds.
  { apply (cloud_mounts_dom menv
             (λ cloud, match excluded_clouds with
                       | Some excluded => cloud_in_iterable menv cloud excluded
                       | None => false
                       end) _ _ cloud remote local); try done.
    destruct excluded_clouds; [by apply Hexcl|done]. }
  destruct (r2_is_enabled menv); [by apply dict_update_mono|done].
Qed.

Lemma existing_credentials_are_mounted_witness :
  is_Some (get_cloud_credential_file_mounts demo_env demo_mounts_env None
             !! "~/.aws/credentials").
Proof.
  apply (existing_credentials_are_mounted demo_env demo_mounts_env None "AWS"
           "~/.aws/credentials" "~/.aws/credentials").
  - apply list_elem_of_here.
  - discriminate.
  - apply list_elem_of_here.
  - reflexivity.
Defined.

(** X14. With R2 enabled, R2's mounts are in the returned file mounts as
    they are: no check that the local file exists, and they replace what a
    registry cloud stored under the same remote path. *)
Theorem r2_mounts_are_added_unchecked env menv excluded_clouds remote local :
  r2_is_enabled menv = true →
  NoDup (r2_credential_mounts menv).*1 →
  (remote, local) ∈ r2_credential_mounts menv →
  get_cloud_credential_file_mounts env menv excluded_clouds !! remote = Some local.
Proof.
  intros Hr2 Hnodup Hin. unfold get_cloud_credential_file_mounts.
  rewrite Hr2. by apply dict_update_last.
Qed.

Lemma r2_mounts_are_added_unchecked_witness :
  get_cloud_credential_file_mounts demo_env demo_mounts_env None !! "~/.config/gcloud"
  = Some "~/.cloudflare/gcloud".
Proof.
  apply r2_mounts_are_added_unchecked.
  - reflexivity.
  - apply (bool_decide_unpack _). vm_compute. exact I.
  - apply list_elem_of_further, list_elem_of_here.
Defined.

(** ** _print_checked_cloud *)

Lemma print_fold_spec results acc :
  let acc' := fold_left print_step results acc in
  acc'.1.1 = acc.1.1 ++ enabled_capabilities_of results
  ∧ (∀ s c, listed acc'.1.2 s c
            ↔ listed acc.1.2 s c ∨ (c, true, Some (reason_str s)) ∈ results)
  ∧ (∀ s c, listed acc'.2 s c
            ↔ listed acc.2 s c ∨ (c, false, Some (reason_str s)) ∈ results)
  ∧ (dict_wf acc.1.2 → dict_wf acc'.1.2)
  ∧ (dict_wf acc.2 → dict_wf acc'.2).
Proof.
  revert acc. induction results as [|[[cap ok] reason] results IH];
    intros [[en hints] reasons].
  - simpl. rewrite app_nil_r. split; [done|].
    split; [intros s c; rewrite elem_of_nil; tauto|].
    split; [intros s c; rewrite elem_of_nil; tauto|done].
  - cbn [fold_left]. cbv zeta.
    destruct (IH (print_step (en, hints, reasons) (cap, ok, reason)))
      as (Hen & Hh & Hr & Hwh & Hwr).
    unfold enabled_capabilities_of. rewrite filter_cons.
    setoid_rewrite elem_of_cons.
    destruct ok, reason as [[s0|d]|]; simpl in *;
      rewrite ?decide_True, ?decide_False in * by done;
      rewrite ?fmap_cons, <- ?app_assoc in *; simpl;
      (split; [exact Hen|]);
      (split; [intros s c; rewrite Hh, ?listed_setdefault_append; naive_solver|]);
      (split; [intros s c; rewrite Hr, ?listed_setdefault_append; naive_solver|]);
      (split; [intros ?; apply Hwh; by try apply setdefault_append_wf
              |intros ?; apply Hwr; by try apply setdefault_append_wf]).
Qed.

Lemma _print_checked_cloud_run env verbose cloud_tuple results ctx2text st :
  _print_checked_cloud env click_echo verbose cloud_tuple results ctx2text st
  = (Return (),
     effects st [] [] (print_checked_cloud_lines env verbose cloud_tuple results)).
Proof.
  exact (_print_checked_cloud_emits env false verbose cloud_tuple results ctx2text st).
Qed.

Lemma enabled_capabilities_of_nonempty results :
  enabled_capabilities_of results ≠ [] ↔ ∃ c reason, (c, true, reason) ∈ results.
Proof.
  unfold enabled_capabilities_of. split.
  - destruct (filter _ results) as [|[[c ok] reason] l] eqn:Hf; [done|]. intros _.
    assert ((c, ok, reason) ∈ filter (λ r : CheckResult, r.1.2 = true) results) as Hin
      by (rewrite Hf; apply list_elem_of_here).
    apply list_elem_of_filter in Hin as [Hok Hin]. simpl in Hok. subst ok. eauto.
  - intros (c & reason & Hin) Hnil. apply fmap_nil_inv in Hnil.
    assert ((c, true, reason) ∈ filter (λ r : CheckResult, r.1.2 = true) results) as Hf
      by (by apply list_elem_of_filter).
    rewrite Hnil in Hf. by apply elem_of_nil in Hf.
Qed.

(** X15. _print_checked_cloud echoes the status line of the cloud first and
    only once; the line lists the capabilities whose result is ok, in the
    order of the results, and so shows the cloud as enabled exactly when some
    result is ok. The account line follows exactly when the output is
    verbose, the cloud is not Cloudflare, some result is ok and the cloud
    reports an identity. *)
Theorem status_line_of_a_cloud env verbose cloud_repr cloud results ctx2text st :
  let run :=
    _print_checked_cloud env click_echo verbose (cloud_repr, cloud) results ctx2text st in
  ∃ rest,
    echoed run.2
    = echoed st ++ echo_cloud cloud_repr (enabled_capabilities_of results) :: rest
    ∧ (enabled_capabilities_of results ≠ [] ↔ ∃ c reason, (c, true, reason) ∈ results)
    ∧ (∀ name caps, echo_cloud name caps ∉ rest)
    ∧ (∀ account,
         echo_activated_account account ∈ rest
         ↔ verbose = true ∧ cloud ≠ cloudflare
           ∧ enabled_capabilities_of results ≠ []
           ∧ get_active_user_identity_str env cloud = Some account).
Proof.
  intros run. subst run. rewrite _print_checked_cloud_run.
  unfold print_checked_cloud_lines.
  destruct (print_fold_spec results ([], [], [])) as (Hen & _).
  destruct (fold_left print_step results ([], [], [])) as [[en hints] reasons].
  simpl in Hen. subst en. simpl. eexists. split; [reflexivity|].
  split; [apply enabled_capabilities_of_nonempty|].
  assert (∀ e, (∀ caps s, e ≠ echo_hint caps s) → (∀ caps s, e ≠ echo_reason caps s) →
               e ∉ ((λ '(reason, caps), echo_hint caps reason) <$> hints)
                   ++ ((λ '(reason, caps), echo_reason caps reason) <$> reasons))
    as Hother.
  { intros e Hh Hr [Hin|Hin]%elem_of_app;
      apply list_elem_of_fmap in Hin as [[s caps] [-> _]];
      [exact (Hh _ _ eq_refl)|exact (Hr _ _ eq_refl)]. }
  split.
  - intros name caps [Hin|Hin]%elem_of_app; [|by apply Hother in Hin].
    destruct (enabled_capabilities_of results); [by apply elem_of_nil in Hin|].
    destruct (verbose && bool_decide (cloud ≠ cloudflare));
      [|by apply elem_of_nil in Hin].
    destruct (get_active_user_identity_str env cloud); [|by apply elem_of_nil in Hin].
    by apply list_elem_of_singleton in Hin.
  - intros account. rewrite elem_of_app. split.
    + intros [Hin|Hin]; [|by apply Hother in Hin].
      destruct (enabled_capabilities_of results); [by apply elem_of_nil in Hin|].
      destruct verbose; [|by apply elem_of_nil in Hin]. simpl in Hin.
      destruct (bool_decide_reflect (cloud ≠ cloudflare)); [|by apply elem_of_nil in Hin].
      destruct (get_active_user_identity_str env cloud); [|by apply elem_of_nil in Hin].
      apply list_elem_of_singleton in Hin as [= ->]. done.
    + intros (-> & Hcloud & Hen & ->). left.
      destruct (enabled_capabilities_of results); [done|]. simpl.
      rewrite bool_decide_eq_true_2 by done. by apply list_elem_of_singleton.
Qed.

(** X16. _print_checked_cloud groups the string reasons by their text: a
    'Reason' line lists exactly the capabilities whose result is not ok with
    that text, every such result is in a line, and no text has two lines;
    the same holds for the 'Hint' lines and the results that are ok. Reasons
    that are mappings or absent give no line. *)
Theorem reasons_are_grouped_by_text env verbose cloud_tuple results ctx2text st :
  let run :=
    _print_checked_cloud env click_echo verbose cloud_tuple results ctx2text st in
  let lines := drop (length (echoed st)) (echoed run.2) in
  let line := λ ok : bool, if ok then echo_hint else echo_reason in
  ∀ ok : bool,
    (∀ caps s, line ok caps s ∈ lines →
       caps ≠ [] ∧ ∀ c, c ∈ caps ↔ (c, ok, Some (reason_str s)) ∈ results)
    ∧ (∀ c s, (c, ok, Some (reason_str s)) ∈ results → ∃ caps, line ok caps s ∈ lines)
    ∧ (∀ caps caps' s, line ok caps s ∈ lines → line ok caps' s ∈ lines → caps = caps').
Proof.
  intros run lines line ok. subst lines run. rewrite _print_checked_cloud_run.
  cbn [snd effects echoed]. rewrite drop_app_length.
  unfold print_checked_cloud_lines. destruct cloud_tuple as [cloud_repr cloud].
  destruct (print_fold_spec results ([], [], [])) as (_ & Hh & Hr & Hwh & Hwr).
  destruct (fold_left print_step results ([], [], [])) as [[en hints] reasons].
  simpl in Hh, Hr, Hwh, Hwr.
  specialize (Hwh dict_wf_nil). specialize (Hwr dict_wf_nil).
  set (d := if ok then hints else reasons).
  assert (dict_wf d) as Hwf by (by destruct ok).
  assert (∀ s c, listed d s c ↔ (c, ok, Some (reason_str s)) ∈ results) as Hd.
  { intros s c. subst d. destruct ok; [rewrite Hh|rewrite Hr];
      (split; [intros [H|?]; [by apply listed_nil in H|done]|by right]). }
  assert (∀ caps s, line ok caps s ∈ [echo_cloud cloud_repr en]
                      ++ match match en with
                               | [] => None
                               | _ :: _ =>
                                   if verbose && bool_decide (cloud ≠ cloudflare)
                                   then get_active_user_identity_str env cloud
                                   else None
                               end with
                         | Some account => [echo_activated_account account]
                         | None => []
                         end
                      ++ ((λ '(reason, caps), echo_hint caps reason) <$> hints)
                      ++ ((λ '(reason, caps), echo_reason caps reason) <$> reasons)
                    ↔ (s, caps) ∈ d) as Hline.
  { intros caps s. rewrite !elem_of_app, list_elem_of_singleton, !list_elem_of_fmap.
    subst line d. split.
    - intros [H|[H|[([s' caps'] & H & Hin)|([s' caps'] & H & Hin)]]];
        destruct ok; try done;
        try (injection H as <- <-; done).
      all: destruct (match en with [] => None | _ => _ end);
        [apply list_elem_of_singleton in H|apply elem_of_nil in H]; done.
    - intros Hin. right; right. destruct ok; [left|right]; by exists (s, caps). }
  split; [|split].
  - intros caps s Hin%Hline. split.
    + destruct Hwf as [_ Hne]. rewrite Forall_forall in Hne. exact (Hne _ Hin).
    + intros c. rewrite <- Hd. symmetry. by apply dict_wf_listed.
  - intros c s (caps & Hin & _)%Hd. exists caps. by apply Hline.
  - intros caps caps' s Hin%Hline Hin'%Hline.
    destruct Hwf as [Hnodup _]. by eapply NoDup_keys_inj.
Qed.

(** ** The order and the closing of the report *)

Lemma insert_by_Sorted {A} (key : A → string) x l :
  Sorted (λ a b, str_le (key a) (key b)) l →
  Sorted (λ a b, str_le (key a) (key b)) (PyStr.insert_by key x l).
Proof.
  induction l as [|y l IH]; intros Hsorted; simpl.
  - by repeat constructor.
  - destruct (String.leb (key x) (key y)) eqn:E.
    + constructor; [done|]. by constructor.
    + apply Sorted_inv in Hsorted as [Hl Hhd].
      assert (str_le (key y) (key x)) as Hyx.
      { unfold str_le. destruct (String.leb_total (key x) (key y)); congruence. }
      constructor; [by apply IH|].
      destruct l as [|z l]; simpl; [by constructor|].
      destruct (String.leb (key x) (key z)); constructor; [done|].
      by apply HdRel_inv in Hhd.
Qed.

Lemma sorted_Sorted {A} (key : A → string) l :
  Sorted (λ a b, str_le (key a) (key b)) (PyStr.sorted key l).
Proof.
  induction l as [|x l IH]; simpl; [constructor|]. by apply insert_by_Sorted.
Qed.

Lemma print_checked_cloud_lines_kind env verbose cloud_tuple results :
  ∃ caps rest,
    print_checked_cloud_lines env verbose cloud_tuple results
    = echo_cloud cloud_tuple.1 caps :: rest
    ∧ Forall (λ e, cloud_line e = true ∧ echo_cloud_name e = None) rest.
Proof.
  unfold print_checked_cloud_lines. destruct cloud_tuple as [cloud_repr cloud].
  destruct (fold_left print_step results ([], [], [])) as [[en hints] reasons].
  eexists _, _. split; [reflexivity|].
  apply Forall_app. split.
  - destruct (match en with [] => None | _ => _ end); by repeat constructor.
  - apply Forall_app. split; apply Forall_fmap, Forall_forall; by intros [s caps] _.
Qed.

Lemma cloud_lines_names env verbose agg :
  omap echo_cloud_name (cloud_lines env verbose agg)
  = (λ item : CloudTuple * list CheckResult, item.1.1)
      <$> PyStr.sorted (λ item : CloudTuple * list CheckResult, item.1.1)
            (check_results_dict agg)
  ∧ Forall (λ e, cloud_line e = true) (cloud_lines env verbose agg).
Proof.
  unfold cloud_lines.
  induction (PyStr.sorted _ (check_results_dict agg)) as [|[t results] l [IH1 IH2]].
  - split; [done|constructor].
  - rewrite !fmap_cons. cbn [concat fst snd].
    destruct (print_checked_cloud_lines_kind env verbose t results)
      as (caps & rest & -> & Hrest).
    rewrite <- app_comm_cons. cbn [omap list_omap echo_cloud_name].
    rewrite omap_app. split.
    + f_equal. rewrite IH1.
      replace (omap echo_cloud_name rest) with (@nil string); [done|].
      clear -Hrest. induction Hrest as [|e rest [_ He] _ IH]; [done|].
      simpl. by rewrite He.
    + constructor; [done|]. apply Forall_app. split; [|done].
      eapply Forall_impl; [exact Hrest|]. by intros e [? _].
Qed.

Lemma closing_lines_kind env clouds names agg no_cloud :
  Forall (λ e, cloud_line e = false) (closing_lines env clouds names agg no_cloud).
Proof.
  unfold closing_lines.
  destruct no_cloud, (disallowed_names env names); by repeat constructor.
Qed.

Lemma omap_none {A B} (f : A → option B) l :
  Forall (λ x, f x = None) l → omap f l = [].
Proof. induction 1 as [|x l Hx _ IH]; [done|]. simpl. by rewrite Hx. Qed.

Lemma check_results_dict_entry env clouds_to_check names caps (cloud_tuple : CloudTuple) :
  (∃ results,
     (cloud_tuple, results) ∈ check_results_dict (run_aggregate env clouds_to_check names caps))
  ↔ ∃ capability,
      (cloud_tuple, capability) ∈ matrix clouds_to_check names caps
      ∧ check_credentials env cloud_tuple.2 capability ≠ raises_NotSupportedError.
Proof.
  split.
  - intros [results Hin].
    destruct (run_aggregate_wf env clouds_to_check names caps) as (_ & _ & [_ Hne]).
    rewrite Forall_forall in Hne. specialize (Hne _ Hin). simpl in Hne.
    destruct results as [|r results]; [done|].
    assert (listed (check_results_dict (run_aggregate env clouds_to_check names caps))
              cloud_tuple r) as Hl
      by (exists (r :: results); split; [done|by apply elem_of_cons; left]).
    unfold run_aggregate, aggregate in Hl.
    apply listed_check_results_fold in Hl as [Hl|[capability Hz]];
      [by apply listed_nil in Hl|].
    rewrite zip_fmap_self in Hz.
    apply list_elem_of_fmap in Hz as [p [[= <- Hr] Hp]].
    exists capability. split; [done|]. intros Hsup.
    unfold probe_result in Hr. simpl in Hr. by rewrite Hsup in Hr.
  - intros (capability & Hin & Hsup). by eapply probed_pair_has_results.
Qed.

(** X17. A run that is not quiet and whose names resolve echoes the status
    lines in ascending order of the cloud names, and a name has a status line
    exactly when an eligible cloud of that name supports a requested
    capability. *)
Theorem status_lines_are_sorted env verbose clouds capabilities st
    clouds_to_check names :
  resolve_clouds_to_check env clouds = Return clouds_to_check →
  resolve_config_allowed_cloud_names env = Return names →
  let caps := default ALL_CAPABILITIES capabilities in
  let run := check_capabilities env false verbose clouds capabilities st in
  let status_names :=
    omap echo_cloud_name (drop (length (echoed st)) (echoed run.2)) in
  Sorted str_le status_names
  ∧ ∀ x, x ∈ status_names
         ↔ ∃ (cloud_tuple : CloudTuple) capability,
             cloud_tuple.1 = x
             ∧ (cloud_tuple, capability) ∈ matrix clouds_to_check names caps
             ∧ check_credentials env cloud_tuple.2 capability
               ≠ raises_NotSupportedError.
Proof.
  intros Hclouds Hnames caps run status_names. subst status_names run.
  rewrite (check_capabilities_run_full env false verbose clouds capabilities st
             _ _ Hclouds Hnames).
  cbn [snd effects echoed quiet_out]. rewrite drop_app_length. fold caps.
  set (agg := run_aggregate env clouds_to_check names caps).
  cbn [omap list_omap echo_cloud_name]. rewrite omap_app.
  rewrite (omap_none echo_cloud_name (closing_lines _ _ _ _ _)).
  2:{ eapply Forall_impl; [apply closing_lines_kind|]. by intros []. }
  rewrite app_nil_r.
  destruct (cloud_lines_names env verbose agg) as [-> _]. split.
  - apply (Sorted_fmap _ (λ a b : CloudTuple * list CheckResult, str_le a.1.1 b.1.1));
      [done|apply sorted_Sorted].
  - intros x. rewrite list_elem_of_fmap. split.
    + intros ([t results] & -> & Hin%PyStrFacts.elem_of_sorted).
      assert (∃ results, (t, results) ∈ check_results_dict agg) as Hentry by eauto.
      apply check_results_dict_entry in Hentry as (capability & Hm & Hsup).
      by exists t, capability.
    + intros (t & capability & <- & Hm & Hsup).
      assert (∃ results, (t, results) ∈ check_results_dict agg) as [results Hin]
        by (apply check_results_dict_entry; eauto).
      exists (t, results). split; [done|]. by apply PyStrFacts.elem_of_sorted.
Qed.

Lemma status_lines_are_sorted_witness :
  Sorted str_le
    (omap echo_cloud_name
       (drop (length (echoed fresh_state))
          (echoed (check_capabilities demo_env false false None None fresh_state).2))).
Proof.
  exact (proj1 (status_lines_are_sorted demo_env false None None fresh_state
                  demo_clouds_to_check demo_names eq_refl eq_refl)).
Defined.

(** X18. A run that is not quiet and whose names resolve echoes the note
    about disabled clouds exactly when some registered cloud or Cloudflare is
    outside the allow-list, whether the run ends in SystemExit or returns;
    the note lists those clouds, in the order of the registry. *)
Theorem disallowed_hint_lists_the_rest env verbose clouds capabilities st
    clouds_to_check names :
  resolve_clouds_to_check env clouds = Return clouds_to_check →
  resolve_config_allowed_cloud_names env = Return names →
  let run := check_capabilities env false verbose clouds capabilities st in
  ∀ disallowed,
    echo_disallowed_hint disallowed ∈ drop (length (echoed st)) (echoed run.2)
    ↔ disallowed ≠ []
      ∧ disallowed = filter (λ c, c ∉ names) (get_all_clouds env).
Proof.
  intros Hclouds Hnames run disallowed. subst run.
  rewrite (check_capabilities_run_full env false verbose clouds capabilities st
             _ _ Hclouds Hnames).
  cbn [snd effects echoed quiet_out]. rewrite drop_app_length.
  rewrite elem_of_cons, elem_of_app.
  destruct (cloud_lines_names env verbose
              (run_aggregate env clouds_to_check names
                 (default ALL_CAPABILITIES capabilities))) as [_ Hkind].
  rewrite Forall_forall in Hkind.
  unfold closing_lines. fold (disallowed_names env names).
  split.
  - intros [[=]|[Hin%Hkind|Hin]]; [done|].
    destruct (bool_decide _), (disallowed_names env names) as [|c l] eqn:Hd;
      rewrite ?elem_of_cons, ?elem_of_app, ?elem_of_cons, ?elem_of_nil,
        ?list_elem_of_singleton in Hin;
      naive_solver.
  - intros [Hne ->]. right; right. fold (disallowed_names env names) in Hne |- *.
    destruct (bool_decide _), (disallowed_names env names) as [|c l]; [done| |done|].
    + apply elem_of_cons; right. by apply list_elem_of_singleton.
    + apply elem_of_cons; right. apply elem_of_app; left.
      by apply list_elem_of_singleton.
Qed.

Lemma disallowed_hint_lists_the_rest_witness :
  echo_disallowed_hint ["GCP"; "Cloudflare"]
    ∈ drop (length (echoed gcp_state))
        (echoed (check_capabilities aws_only_env false false None None gcp_state).2).
Proof.
  apply (disallowed_hint_lists_the_rest aws_only_env false None None gcp_state
           demo_clouds_to_check ["AWS"] eq_refl eq_refl).
  split; [discriminate|reflexivity].
Defined.
